(** * go-serial-utils: the 1200-bps touch and the reset-and-detect loop

    A shallow embedding of [reset.go] and [port_mapper.go].

    Everything the Go code obtains from outside (the serial library, the
    caller's ports mapper, the clock, the order in which [range] walks a map)
    is read from an environment [Env]; everything it does to the outside
    (serial operations, sleeps, callback invocations, enumerations) is
    appended, with its outcome, to the [trace] of the state it threads
    along. *)

From Stdlib Require Import ZArith Lia List Ascii.
From Stdlib Require String.
From stdpp Require Import base option gmap strings list.

Local Open Scope Z_scope.

(** ** Data *)

(** Go's [error] values. [fmt.Errorf("prefix: %w", err)] builds a new error
    around [err]; the prefix is kept without its trailing [": %w"]. *)
Inductive error : Type :=
| ErrMsg (msg : string)
| ErrWrap (prefix : string) (inner : error).

(** [err.Error()] *)
Fixpoint Error (e : error) : string :=
  match e with
  | ErrMsg msg => msg
  | ErrWrap prefix inner => prefix +:+ ": " +:+ Error inner
  end.

(** [map[string]bool]. A key may be bound to [false]: [m[p]] is then false
    although [range m] visits [p]. A [nil] map reads and ranges like [∅]. *)
Abbreviation portmap := (gmap string bool).

(** [m[p]] for a [map[string]bool]: the zero value [false] on a missing key. *)
Definition index (m : portmap) (p : string) : bool := default false (m !! p).

(** The three places where [Reset] calls [portsMapper]. *)
Inductive CallSite : Type := SiteLast | SiteNow | SiteCheck.

(** The argument of [cb.Debug]; [fmt.Sprintf] is kept symbolic, with the
    format string of the source. *)
Inductive DebugMsg : Type :=
| SprintfMap (format : string) (m : portmap)
| SprintfStr (format : string) (s : string)
| Literal (s : string).

(** What the outside world sees of a run, in order; [err] is what the
    operation answered ([None] for [nil]). *)
Inductive Event : Type :=
| EvOpen (port : string) (baud : Z) (err : option error)
| EvSetDTR (dtr : bool) (err : option error)
| EvClose (err : option error)
| EvSleep (ms : Z)
| EvPortsMapper (site : CallSite) (res : portmap) (err : option error)
| EvTouchingPort (port : string)
| EvWaitingForNewSerial
| EvBootloaderPortFound (port : string)
| EvDebug (msg : DebugMsg).

(** [ResetProgressCallbacks]: a field is [true] when the function it holds is
    not [nil]. Calling it is recorded as an [Event]. *)
Record ResetProgressCallbacks : Type := mkCallbacks {
  TouchingPort : bool;
  WaitingForNewSerial : bool;
  BootloaderPortFound : bool;
  Debug : bool
}.

(** A caller-supplied [PortsMapper]: a Go closure, given by the answer of its
    [n]-th call (counting from 0). *)
Definition PortsMapper : Type := nat -> portmap * option error.

(** The environment of a run. External operations are numbered in the order
    they happen ([ticks]); an oracle is asked at the number of the operation. *)
Record Env : Type := mkEnv {
  (** [runtime.GOOS] *)
  GOOS : string;
  (** [serial.Open(port, &serial.Mode{BaudRate: baud})]: [None] is success *)
  serial_Open : nat -> string -> Z -> option error;
  (** [p.SetDTR(dtr)] *)
  serial_SetDTR : nat -> bool -> option error;
  (** [p.Close()] *)
  serial_Close : nat -> option error;
  (** [serial.GetPortsList()] *)
  serial_GetPortsList : nat -> list string * option error;
  (** milliseconds an external operation takes on top of what it must *)
  lag : nat -> N;
  (** the order of a [range] over a map: keys are visited by increasing rank *)
  range_rank : nat -> string -> nat
}.

(** The state threaded through the code: the monotonic clock (milliseconds),
    the number of external operations and of [portsMapper] calls so far, the
    variable [emulatedPort] captured by the dry-run closure, and the trace. *)
Record State : Type := mkState {
  clock : Z;
  ticks : nat;
  calls : nat;
  emulatedPort : string;
  trace : list Event
}.

(** ** Control flow

    A piece of [Reset] either falls through to the next statement with a
    value, or executes a [return port, err]. *)
Inductive Flow (A : Type) : Type :=
| Next (a : A)
| Return (port : string) (err : option error).
Arguments Next {A} a.
Arguments Return {A} port err.

Definition M (A : Type) : Type := State -> Flow A * State.

#[global] Instance M_ret : MRet M := λ A a w, (Next a, w).
#[global] Instance M_bind : MBind M := λ A B f m w,
  match m w with
  | (Next a, w') => f a w'
  | (Return port err, w') => (Return port err, w')
  end.

(** [return port, err] *)
Definition return_ {A : Type} (port : string) (err : option error) : M A :=
  λ w, (Return port err, w).

(** a statement that only changes the state *)
Definition exec (f : State -> State) : M unit := λ w, (Next tt, f w).

(** an expression that only reads the state *)
Definition eval {A : Type} (f : State -> A) : M A := λ w, (Next (f w), w).

(** [if err != nil { return "", err }] *)
Definition check_err (err : option error) : M unit :=
  match err with
  | Some e => return_ "" (Some e)
  | None => mret tt
  end.

(** [strings.HasSuffix]:
    [len(s) >= len(suffix) && s[len(s)-len(suffix):] == suffix] *)
Definition HasSuffix (s suffix : string) : bool :=
  (String.length suffix <=? String.length s)%nat
  && String.eqb
       (String.substring (String.length s - String.length suffix)
                  (String.length suffix) s)
       suffix.

Section WithEnv.

Variable E : Env.

(** ** Primitive operations *)

(** One external operation: it is logged, it takes [lag] and uses up a tick. *)
Definition emit (ev : Event) (w : State) : State :=
  {| clock := clock w + Z.of_N (lag E (ticks w));
     ticks := S (ticks w);
     calls := calls w;
     emulatedPort := emulatedPort w;
     trace := trace w ++ [ev] |}.

(** [time.Sleep(ms * time.Millisecond)]: pauses for at least [ms]. *)
Definition Sleep (ms : Z) (w : State) : State :=
  let w' := emit (EvSleep ms) w in
  {| clock := clock w' + ms;
     ticks := ticks w';
     calls := calls w';
     emulatedPort := emulatedPort w';
     trace := trace w' |}.

(** [if cb != nil && cb.F != nil { cb.F(...) }], the call being the event [ev] *)
Definition fire (cb : option ResetProgressCallbacks)
    (F : ResetProgressCallbacks -> bool) (ev : Event) (w : State) : State :=
  match cb with
  | Some c => if F c then emit ev w else w
  | None => w
  end.

Definition callback (cb : option ResetProgressCallbacks)
    (F : ResetProgressCallbacks -> bool) (ev : Event) : M unit :=
  exec (fire cb F ev).

(** ** [Touch1200bps] *)

Definition Touch1200bps (port : string) (w : State) : option error * State :=
  let err := serial_Open E (ticks w) port 1200 in
  let w := emit (EvOpen port 1200 err) w in
  match err with
  | Some err => (Some (ErrWrap "opening port at 1200bps" err), w)
  | None =>
    let dtr :=
      if negb (String.eqb (GOOS E) "windows") then
        (* This is not required on Windows *)
        let err := serial_SetDTR E (ticks w) false in
        (err, emit (EvSetDTR false err) w)
      else (None, w) in
    match dtr with
    | (Some err, w) =>
      let w := emit (EvClose (serial_Close E (ticks w))) w in
      (Some (ErrWrap "setting DTR to OFF" err), w)
    | (None, w) =>
      let w := emit (EvClose (serial_Close E (ticks w))) w in
      let w := Sleep 500 w in
      (None, w)
    end
  end.

(** ** Ports mappers *)

(** [DefaultPortMapper]: the answer it gives when asked at tick [n] *)
Definition DefaultPortMapper (n : nat) : portmap * option error :=
  let ports := serial_GetPortsList E n in
  match ports.2 with
  | Some err => (∅, Some (ErrWrap "listing serial ports" err))
  | None => (foldl (λ res port, <[port := true]> res) ∅ ports.1, None)
  end.

(** The closure that [Reset] installs when [dryRun] is set. It reads and
    updates the captured variable [emulatedPort]. *)
Definition emulator (w : State) : (portmap * option error) * State :=
  let port := emulatedPort w in
  let res : portmap := ∅ in
  let res :=
    if negb (String.eqb port "") then <[port := true]> res else res in
  let port :=
    if HasSuffix port "999" then port +:+ "0"
    else if String.eqb port "" then "newport"
    else port in
  ((res, None),
   {| clock := clock w; ticks := ticks w; calls := calls w;
      emulatedPort := port; trace := trace w |}).

(** The value of the variable [portsMapper] *)
Inductive Mapper : Type :=
| TheDefault
| Caller (f : PortsMapper)
| Emulator.

(** the answer of [portsMapper()] and the state the function leaves *)
Definition ask (pm : Mapper) (w : State) : (portmap * option error) * State :=
  match pm with
  | TheDefault => (DefaultPortMapper (ticks w), w)
  | Caller f => (f (calls w), w)
  | Emulator => emulator w
  end.

(** the state after [portsMapper()] was called at call site [site] *)
Definition called (pm : Mapper) (site : CallSite) (w : State) : State :=
  let r := ask pm w in
  let w := emit (EvPortsMapper site r.1.1 r.1.2) r.2 in
  {| clock := clock w; ticks := ticks w; calls := S (calls w);
     emulatedPort := emulatedPort w; trace := trace w |}.

(** [portsMapper()] at call site [site] *)
Definition callMapper (pm : Mapper) (site : CallSite)
  : M (portmap * option error) := λ w, (Next (ask pm w).1, called pm site w).

(** ** [range] over a map

    Go leaves the order unspecified: the keys are visited by increasing
    [range_rank] (insertion sort of the keys), so that every order of the
    keys is the order of some environment. *)
Fixpoint insert_by (rank : string -> nat) (x : string) (l : list string)
  : list string :=
  match l with
  | [] => [x]
  | y :: l' =>
    if (rank x <=? rank y)%nat then x :: l else y :: insert_by rank x l'
  end.

Definition range (m : portmap) (w : State) : list string :=
  foldr (insert_by (range_rank E (ticks w))) [] (map_to_list m).*1.

(** [for p := range m { if !last[p] { return p } }]: the first key visited
    that [last] does not hold, if there is one *)
Definition first_new (last m : portmap) (w : State) : option string :=
  List.find (λ p, negb (index last p)) (range m w).

(** [for p := range m { if !last[p] { hasNewPorts = true; break } }] *)
Definition has_new (last m : portmap) (w : State) : bool :=
  existsb (λ p, negb (index last p)) (range m w).

(** ** [Reset] *)

Section Loop.

Variable pm : Mapper.
Variable cb : option ResetProgressCallbacks.

Definition debug (msg : DebugMsg) : M unit := callback cb Debug (EvDebug msg).

(** The stabilisation check, run when [hasNewPorts] is set. *)
Definition stabilize (last : portmap) : M unit :=
  _ ← debug (Literal "New ports found!");
  _ ← exec (Sleep 1000);
  '(check, err) ← callMapper pm SiteCheck;
  _ ← check_err err;
  _ ← debug (SprintfMap "CHECK: %v" check);
  found ← eval (first_new last check);
  match found with
  | Some p =>
    _ ← callback cb BootloaderPortFound (EvBootloaderPortFound p);
    return_ p None (* Found it! *)
  | None => debug (Literal "Port check failed... still waiting")
  end.

(** The body of the [for] loop; its value is the new [last]. *)
Definition poll (last : portmap) : M portmap :=
  '(now, err) ← callMapper pm SiteNow;
  _ ← check_err err;
  _ ← debug (SprintfMap "WAIT: %v" now);
  hasNewPorts ← eval (has_new last now);
  _ ← (if hasNewPorts : bool then stabilize last else mret tt);
  _ ← exec (Sleep 250);
  mret now.

(** [for time.Now().Before(deadline) { ... }]; [None] when [fuel] runs out. *)
Fixpoint wait_loop (deadline : Z) (fuel : nat) (last : portmap) (w : State)
  : option (Flow unit * State) :=
  match fuel with
  | O => None
  | S fuel =>
    if clock w <? deadline then
      match poll last w with
      | (Next last, w) => wait_loop deadline fuel last w
      | (Return port err, w) => Some (Return port err, w)
      end
    else Some (Next tt, w)
  end.

(** [Touch1200bps] as a statement of [Reset] *)
Definition touch (port : string) : M (option error) := λ w,
  let r := Touch1200bps port w in (Next r.1, r.2).

(** The block guarded by [portToTouch != "" && last[portToTouch]]. *)
Definition touch_block (portToTouch : string) (wait dryRun : bool) : M unit :=
  _ ← debug (SprintfStr "TOUCH: %v" portToTouch);
  _ ← callback cb TouchingPort (EvTouchingPort portToTouch);
  if dryRun then
    mret tt (* do nothing! *)
  else
    err ← touch portToTouch;
    match err with
    | Some err =>
      if negb wait then return_ "" (Some (ErrWrap "1200-bps touch" err))
      else mret tt
    | None => mret tt
    end.

(** [Reset] from the first enumeration up to the [for] loop; its value is
    [last]. *)
Definition before_loop (portToTouch : string) (wait dryRun : bool)
  : M portmap :=
  '(last, err) ← callMapper pm SiteLast;
  _ ← debug (SprintfMap "LAST: %v" last);
  _ ← check_err err;
  _ ← (if negb (String.eqb portToTouch "") && index last portToTouch
       then touch_block portToTouch wait dryRun
       else mret tt);
  _ ← (if negb wait then return_ "" None else mret tt);
  _ ← callback cb WaitingForNewSerial EvWaitingForNewSerial;
  mret last.

End Loop.

(** The [portsMapper] in use after the first two [if]s of [Reset], and the
    state with [emulatedPort := portToTouch] when the emulator is installed. *)
Definition select_mapper (portToTouch : string) (dryRun : bool)
    (portsMapper : option PortsMapper) (w : State) : Mapper * State :=
  let pm :=
    match portsMapper with
    | None => TheDefault (* non dry-run default *)
    | Some f => Caller f
    end in
  if dryRun then
    (Emulator,
     {| clock := clock w; ticks := ticks w; calls := calls w;
        emulatedPort := portToTouch; trace := trace w |})
  else (pm, w).

(** [time.Now().Add(...)]: 10 seconds, 100 milliseconds in [dryRun] *)
Definition deadline_of (dryRun : bool) (w : State) : Z :=
  let deadline := clock w + 10000 in
  if dryRun then
    (* use a much lower timeout in dryRun *)
    clock w + 100
  else deadline.

(** [Reset]. The result is [None] only when [fuel] is too small for the
    number of iterations of the loop. *)
Definition Reset (fuel : nat) (portToTouch : string) (wait dryRun : bool)
    (portsMapper : option PortsMapper) (cb : option ResetProgressCallbacks)
    (w : State) : option ((string * option error) * State) :=
  let s := select_mapper portToTouch dryRun portsMapper w in
  match before_loop s.1 cb portToTouch wait dryRun s.2 with
  | (Return port err, w) => Some ((port, err), w)
  | (Next last, w) =>
    match wait_loop s.1 cb (deadline_of dryRun w) fuel last w with
    | None => None
    | Some (Return port err, w) => Some ((port, err), w)
    | Some (Next _, w) =>
      Some (("", None),
            fire cb BootloaderPortFound (EvBootloaderPortFound "") w)
    end
  end.

End WithEnv.

(** * Observing a run

    The vocabulary in which the facts and the claims below speak of a run:
    classes of events, the events a piece of code adds to the trace, the
    snapshots a trace holds, and the outcomes of each piece of [Reset]. *)

(** the events of [fire cb F ev] *)
Definition fired (cb : option ResetProgressCallbacks)
    (F : ResetProgressCallbacks -> bool) (ev : Event) : list Event :=
  match cb with
  | Some c => if F c then [ev] else []
  | None => []
  end.

(** ** Classes of events *)

(** an enumeration that failed *)
Definition enum_failed (ev : Event) : bool :=
  match ev with
  | EvPortsMapper _ _ (Some _) => true
  | _ => false
  end.

(** a step of the touch that failed ([Close] is not checked by the code) *)
Definition serial_failed (ev : Event) : bool :=
  match ev with
  | EvOpen _ _ (Some _) | EvSetDTR _ (Some _) => true
  | _ => false
  end.

(** a call of one of the progress callbacks *)
Definition is_callback (ev : Event) : bool :=
  match ev with
  | EvTouchingPort _ | EvWaitingForNewSerial | EvBootloaderPortFound _
  | EvDebug _ => true
  | _ => false
  end.

(** the events of an iteration that falls through *)
Definition quiet (ev : Event) : bool :=
  match ev with
  | EvPortsMapper SiteNow _ None | EvPortsMapper SiteCheck _ None
  | EvDebug _ | EvSleep _ => true
  | _ => false
  end.

(** no step of a touch fails in these events *)
Abbreviation no_failure := (Forall (λ ev, serial_failed ev = false)).

(** the events of the debug message that follows the first enumeration,
    and of none after the others *)
Definition after_failure (cb : option ResetProgressCallbacks)
    (site : CallSite) (res : portmap) : list Event :=
  match site with
  | SiteLast => fired cb Debug (EvDebug (SprintfMap "LAST: %v" res))
  | _ => []
  end.

(** the error [Touch1200bps] returns when [ev] is its failing step *)
Definition touch_error (ev : Event) : option error :=
  match ev with
  | EvOpen _ _ (Some e) => Some (ErrWrap "opening port at 1200bps" e)
  | EvSetDTR _ (Some e) => Some (ErrWrap "setting DTR to OFF" e)
  | _ => None
  end.

(** what [Touch1200bps] still does after its failing step [ev]: it closes
    the port when it had opened it *)
Definition closing (ev : Event) (evs : list Event) : Prop :=
  match ev with
  | EvSetDTR _ _ => ∃ c, evs = [EvClose c]
  | _ => evs = []
  end.

(** ** Snapshots in a trace *)

(** the result of a successful enumeration made at a call site that [keep]
    selects *)
Definition snapshot (keep : CallSite → bool) (ev : Event) : option portmap :=
  match ev with
  | EvPortsMapper site res None => if keep site then Some res else None
  | _ => None
  end.

(** the most recent such result in a trace *)
Definition most_recent (keep : CallSite → bool) (evs : list Event)
  : option portmap :=
  last (omap (snapshot keep) evs).

(** the result of the most recent successful enumeration *)
Definition latest (evs : list Event) : option portmap :=
  most_recent (λ _, true) evs.

(** the call sites other than the stabilisation check *)
Definition not_check (site : CallSite) : bool :=
  match site with SiteCheck => false | _ => true end.

(** the result of the most recent successful enumeration that was not a
    stabilisation check *)
Definition latest_but_checks (evs : list Event) : option portmap :=
  most_recent not_check evs.

(** ** The emulator, as functions of [emulatedPort] *)

(** what the emulator reports when [emulatedPort] is [port] *)
Definition emulated_ports (port : string) : portmap :=
  if String.eqb port "" then ∅ else {[port := true]}.

(** what [emulatedPort] becomes when it is [port] *)
Definition next_emulated (port : string) : string :=
  if HasSuffix port "999" then port +:+ "0"
  else if String.eqb port "" then "newport" else port.

(** the answer of the [n]-th call of [portsMapper()] after the state [w],
    counting from 0 *)
Definition answer_after (E : Env) (pm : Mapper) (n : nat) (w : State)
  : portmap * option error :=
  (ask E pm (Nat.iter n (λ w, (ask E pm w).2) w)).1.

(** ** Outcomes

    For each piece of [Reset], the ways it can end: its result, the state it
    leaves and the events it adds to the trace. *)

Section Outcomes.
Variable E : Env.
Variable pm : Mapper.
Variable cb : option ResetProgressCallbacks.
Variable deadline : Z.

Abbreviation dbg msg := (fired cb Debug (EvDebug msg)).

(** What a call of [Touch1200bps] can do. *)
Inductive touch_spec (port : string) (w : State)
  : option error → State → list Event → Prop :=
| touch_open_failed e w' :
    serial_Open E (ticks w) port 1200 = Some e →
    touch_spec port w (Some (ErrWrap "opening port at 1200bps" e)) w'
      [EvOpen port 1200 (Some e)]
| touch_dtr_failed e c w' :
    serial_Open E (ticks w) port 1200 = None →
    GOOS E ≠ "windows" →
    touch_spec port w (Some (ErrWrap "setting DTR to OFF" e)) w'
      [EvOpen port 1200 None; EvSetDTR false (Some e); EvClose c]
| touch_done c w' :
    serial_Open E (ticks w) port 1200 = None →
    GOOS E ≠ "windows" →
    clock w + 500 <= clock w' →
    touch_spec port w None w'
      [EvOpen port 1200 None; EvSetDTR false None; EvClose c; EvSleep 500]
| touch_done_windows c w' :
    serial_Open E (ticks w) port 1200 = None →
    GOOS E = "windows" →
    clock w + 500 <= clock w' →
    touch_spec port w None w'
      [EvOpen port 1200 None; EvClose c; EvSleep 500].

(** What one iteration can do: its outcome, the state it leaves and the
    events it adds to the trace. *)
Inductive poll_spec (last : portmap) (w : State)
  : Flow portmap → State → list Event → Prop :=
| poll_now_failed now e w' :
    (ask E pm w).1 = (now, Some e) →
    poll_spec last w (Return "" (Some e)) w'
      [EvPortsMapper SiteNow now (Some e)]
| poll_nothing_new now w' :
    (ask E pm w).1 = (now, None) →
    (∀ p, is_Some (now !! p) → index last p = true) →
    clock w + 250 <= clock w' →
    poll_spec last w (Next now) w'
      (EvPortsMapper SiteNow now None
       :: dbg (SprintfMap "WAIT: %v" now) ++ [EvSleep 250])
| poll_check_failed now check e w' :
    (ask E pm w).1 = (now, None) →
    (∃ q, is_Some (now !! q) ∧ index last q = false) →
    poll_spec last w (Return "" (Some e)) w'
      (EvPortsMapper SiteNow now None
       :: dbg (SprintfMap "WAIT: %v" now)
       ++ dbg (Literal "New ports found!")
       ++ [EvSleep 1000; EvPortsMapper SiteCheck check (Some e)])
| poll_found now check p w' :
    (ask E pm w).1 = (now, None) →
    (∃ q, is_Some (now !! q) ∧ index last q = false) →
    is_Some (check !! p) →
    index last p = false →
    poll_spec last w (Return p None) w'
      (EvPortsMapper SiteNow now None
       :: dbg (SprintfMap "WAIT: %v" now)
       ++ dbg (Literal "New ports found!")
       ++ [EvSleep 1000; EvPortsMapper SiteCheck check None]
       ++ dbg (SprintfMap "CHECK: %v" check)
       ++ fired cb BootloaderPortFound (EvBootloaderPortFound p))
| poll_glitch now check w' :
    (ask E pm w).1 = (now, None) →
    (∃ q, is_Some (now !! q) ∧ index last q = false) →
    (∀ p, is_Some (check !! p) → index last p = true) →
    clock w + 250 <= clock w' →
    poll_spec last w (Next now) w'
      (EvPortsMapper SiteNow now None
       :: dbg (SprintfMap "WAIT: %v" now)
       ++ dbg (Literal "New ports found!")
       ++ [EvSleep 1000; EvPortsMapper SiteCheck check None]
       ++ dbg (SprintfMap "CHECK: %v" check)
       ++ dbg (Literal "Port check failed... still waiting")
       ++ [EvSleep 250]).

(** the events of the block guarded by [portToTouch != "" && last[portToTouch]];
    [tev] are those of [Touch1200bps] *)
Definition touch_block_events (port : string) (tev : list Event) : list Event :=
  dbg (SprintfStr "TOUCH: %v" port)
  ++ fired cb TouchingPort (EvTouchingPort port) ++ tev.

(** What the touch block can do. *)
Inductive touch_block_spec (port : string) (wait dryRun : bool) (w : State)
  : Flow unit → State → list Event → Prop :=
| tb_dry w' :
    dryRun = true →
    touch_block_spec port wait dryRun w (Next tt) w' (touch_block_events port [])
| tb_touched w1 w' tev :
    dryRun = false →
    touch_spec port w1 None w' tev →
    touch_block_spec port wait dryRun w (Next tt) w' (touch_block_events port tev)
| tb_swallowed e w1 w' tev :
    dryRun = false → wait = true →
    touch_spec port w1 (Some e) w' tev →
    touch_block_spec port wait dryRun w (Next tt) w' (touch_block_events port tev)
| tb_aborted e w1 w' tev :
    dryRun = false → wait = false →
    touch_spec port w1 (Some e) w' tev →
    touch_block_spec port wait dryRun w
      (Return "" (Some (ErrWrap "1200-bps touch" e))) w'
      (touch_block_events port tev).

(** the events up to the loop: [tbev] are those of the touch block *)
Definition head_events (last : portmap) (err : option error)
    (tbev : list Event) : list Event :=
  EvPortsMapper SiteLast last err :: dbg (SprintfMap "LAST: %v" last) ++ tbev.

(** What [Reset] can do before the loop. *)
Inductive before_loop_spec (port : string) (wait dryRun : bool) (w : State)
  : Flow portmap → State → list Event → Prop :=
| bl_enum_failed last e w' :
    (ask E pm w).1 = (last, Some e) →
    before_loop_spec port wait dryRun w (Return "" (Some e)) w'
      (head_events last (Some e) [])
| bl_touch_aborted last w1 p e w' tbev :
    (ask E pm w).1 = (last, None) →
    port ≠ "" → index last port = true →
    touch_block_spec port wait dryRun w1 (Return p e) w' tbev →
    before_loop_spec port wait dryRun w (Return p e) w'
      (head_events last None tbev)
| bl_no_wait last w1 w' tbev :
    (ask E pm w).1 = (last, None) →
    wait = false →
    (port ≠ "" ∧ index last port = true
       ∧ touch_block_spec port wait dryRun w1 (Next tt) w' tbev
     ∨ (port = "" ∨ index last port = false) ∧ tbev = []) →
    before_loop_spec port wait dryRun w (Return "" None) w'
      (head_events last None tbev)
| bl_waiting last w1 w2 w' tbev :
    (ask E pm w).1 = (last, None) →
    wait = true →
    (port ≠ "" ∧ index last port = true
       ∧ touch_block_spec port wait dryRun w1 (Next tt) w2 tbev
     ∨ (port = "" ∨ index last port = false) ∧ tbev = []) →
    before_loop_spec port wait dryRun w (Next last) w'
      (head_events last None tbev
       ++ fired cb WaitingForNewSerial EvWaitingForNewSerial).

(** [iterates last w last' w']: from the loop head [(last, w)], some
    iterations that all fall through lead to the loop head [(last', w')]. *)
Inductive iterates : portmap → State → portmap → State → Prop :=
| iterates_refl last w : iterates last w last w
| iterates_step last w now w1 last' w' :
    clock w < deadline →
    poll E pm cb last w = (Next now, w1) →
    iterates now w1 last' w' →
    iterates last w last' w'.

End Outcomes.

(** ** Sample runs *)

(** A Linux host on which every serial operation succeeds at once. *)
Definition quiet_env : Env :=
  {| GOOS := "linux";
     serial_Open := λ _ _ _, None;
     serial_SetDTR := λ _ _, None;
     serial_Close := λ _, None;
     serial_GetPortsList := λ _, ([], None);
     lag := λ _, 0%N;
     range_rank := λ _ _, 0%nat |}.

(** The same host, where the port cannot be opened. *)
Definition busy_env : Env :=
  {| GOOS := "linux";
     serial_Open := λ _ _ _, Some (ErrMsg "Serial port busy");
     serial_SetDTR := λ _ _, None;
     serial_Close := λ _, None;
     serial_GetPortsList := λ _, ([], None);
     lag := λ _, 0%N;
     range_rank := λ _ _, 0%nat |}.

(** The same Linux host, where the DTR line cannot be driven. *)
Definition stuck_dtr_env : Env :=
  {| GOOS := "linux";
     serial_Open := λ _ _ _, None;
     serial_SetDTR := λ _ _, Some (ErrMsg "Invalid serial port");
     serial_Close := λ _, None;
     serial_GetPortsList := λ _, ([], None);
     lag := λ _, 0%N;
     range_rank := λ _ _, 0%nat |}.

Definition start : State :=
  {| clock := 0; ticks := 0; calls := 0; emulatedPort := ""; trace := [] |}.

Definition boom : error := ErrMsg "boom".

(** all four callbacks set *)
Definition observers : option ResetProgressCallbacks :=
  Some {| TouchingPort := true; WaitingForNewSerial := true;
          BootloaderPortFound := true; Debug := true |}.

(** a ports mapper that gives the answers of [l] in turn, then no port *)
Definition answers (l : list (portmap * option error)) : PortsMapper :=
  λ n, nth n l (∅, None).

Definition ports (l : list string) : portmap :=
  foldl (λ res port, <[port := true]> res) ∅ l.

(** a port appears, then is gone at the stabilisation check *)
Definition glitch : PortsMapper :=
  answers [(ports ["A"], None); (ports ["A"; "B"], None); (ports ["A"], None)].

(** a port appears and is replaced by another one at the stabilisation check *)
Definition renumbered : PortsMapper :=
  answers [(ports ["A"], None); (ports ["A"; "B"], None);
           (ports ["A"; "C"], None)].

(** ** More classes of events *)

(** a call of the ports mapper *)
Definition is_enum (ev : Event) : bool :=
  match ev with
  | EvPortsMapper _ _ _ => true
  | _ => false
  end.

(** the number of calls of the ports mapper in these events *)
Definition enumerations (evs : list Event) : nat :=
  length (filter (λ ev, is_enum ev = true) evs).

(** an operation on the serial port *)
Definition is_serial (ev : Event) : bool :=
  match ev with
  | EvOpen _ _ _ | EvSetDTR _ _ | EvClose _ => true
  | _ => false
  end.

(** what only the waiting phase does: its two callbacks, the enumerations of
    the loop and its two sleeps *)
Definition of_waiting (ev : Event) : bool :=
  match ev with
  | EvWaitingForNewSerial | EvBootloaderPortFound _ => true
  | EvPortsMapper SiteNow _ _ | EvPortsMapper SiteCheck _ _ => true
  | EvSleep ms => negb (ms =? 500)
  | _ => false
  end.

(** a call of [BootloaderPortFound] *)
Definition is_found (ev : Event) : bool :=
  match ev with
  | EvBootloaderPortFound _ => true
  | _ => false
  end.

(** ** More sample runs *)

(** A host with two serial ports, one of them listed twice. *)
Definition two_ports_env : Env :=
  {| GOOS := "linux";
     serial_Open := λ _ _ _, None;
     serial_SetDTR := λ _ _, None;
     serial_Close := λ _, None;
     serial_GetPortsList :=
       λ _, (["/dev/ttyACM0"; "/dev/ttyUSB0"; "/dev/ttyACM0"], None);
     lag := λ _, 0%N;
     range_rank := λ _ _, 0%nat |}.

(** A host on which the ports cannot be listed. *)
Definition no_list_env : Env :=
  {| GOOS := "linux";
     serial_Open := λ _ _ _, None;
     serial_SetDTR := λ _ _, None;
     serial_Close := λ _, None;
     serial_GetPortsList := λ _, ([], Some (ErrMsg "enumeration failed"));
     lag := λ _, 0%N;
     range_rank := λ _ _, 0%nat |}.

(** a port appears and stays *)
Definition settles : PortsMapper :=
  answers [(ports ["A"], None); (ports ["A"; "B"], None);
           (ports ["A"; "B"], None)].

(** the same ports at every call *)
Definition steady (m : portmap) : PortsMapper := λ _, (m, None).

(** a map that keeps the entry of a port that is no longer there *)
Definition unplugged : portmap := {["A" := false]}.

(** a port appears, is gone at the stabilisation check, and is back for good
    from the next call on *)
Definition resettles : PortsMapper :=
  λ n, match n with
       | 0%nat | 2%nat => (ports ["A"], None)
       | _ => (ports ["A"; "B"], None)
       end.

(** ** Answers that settle *)

(** the mapper [f] answers [m] from the call after [w] on, all the keys of
    [m] are bound to [true], and [last] holds them all *)
Definition settled (f : PortsMapper) (m last : portmap) (w : State) : Prop :=
  (∀ n, (calls w <= n)%nat → f n = (m, None))
  ∧ (∀ p v, m !! p = Some v → v = true)
  ∧ (∀ p, is_Some (m !! p) → index last p = true).

(** what a run that only ever sees [m] does: no stabilisation check, no
    sleep of one second, no port reported *)
Definition settled_event (m : portmap) (ev : Event) : Prop :=
  match ev with
  | EvPortsMapper site res err => site ≠ SiteCheck ∧ res = m ∧ err = None
  | EvSleep ms => ms ≠ 1000
  | EvBootloaderPortFound p => p = ""
  | _ => True
  end.

(** ** Callbacks that are set *)

(** [cb != nil && cb.F != nil] *)
Definition is_set (cb : option ResetProgressCallbacks)
    (F : ResetProgressCallbacks → bool) : bool :=
  match cb with
  | Some c => F c
  | None => false
  end.

(** an event that is no call of a callback that [cb] does not hold *)
Definition allowed (cb : option ResetProgressCallbacks) (ev : Event) : bool :=
  match ev with
  | EvTouchingPort _ => is_set cb TouchingPort
  | EvWaitingForNewSerial => is_set cb WaitingForNewSerial
  | EvBootloaderPortFound _ => is_set cb BootloaderPortFound
  | EvDebug _ => is_set cb Debug
  | _ => true
  end.

(** * Facts *)

(** ** Strings *)

Lemma length_app_string (s t : string) :
  String.length (s +:+ t) = (String.length s + String.length t)%nat.
Proof.
  induction s as [|c s IH]; [done|].
  change (String c s +:+ t) with (String c (s +:+ t)). cbn. by rewrite IH.
Qed.

Lemma app_0_neq (s : string) : s ≠ s +:+ "0".
Proof.
  intros H. apply (f_equal String.length) in H.
  rewrite length_app_string in H. cbn in H. lia.
Qed.

Lemma app_0_not_empty (s : string) : String.eqb (s +:+ "0") "" = false.
Proof. by destruct s. Qed.

Lemma get_app_0 (s : string) : String.get (String.length s) (s +:+ "0") = Some "0"%char.
Proof.
  induction s as [|c s IH]; [done|].
  change (String c s +:+ "0") with (String c (s +:+ "0")). exact IH.
Qed.

(** A string that ends in ["0"] does not end in ["999"]. *)
Lemma HasSuffix_app_0 (s : string) : HasSuffix (s +:+ "0") "999" = false.
Proof.
  unfold HasSuffix. rewrite length_app_string.
  change (String.length "0") with 1%nat. change (String.length "999") with 3%nat.
  destruct (3 <=? String.length s + 1)%nat eqn:Hlen; [|done].
  apply Nat.leb_le in Hlen. cbn [andb].
  apply String.eqb_neq. intros Heq.
  pose proof (String.substring_correct1 (s +:+ "0") (String.length s + 1 - 3) 3 2) as Hget.
  rewrite Heq in Hget.
  replace (2 + (String.length s + 1 - 3))%nat with (String.length s) in Hget by lia.
  rewrite get_app_0 in Hget. specialize (Hget ltac:(lia)). discriminate Hget.
Qed.

(** ** Lists of events *)

(** In a list with a single element satisfying [f], that element splits the
    list in one way only. *)
Lemma unique_split {A} (f : A → bool) (l1 l2 r1 r2 : list A) (x y : A) :
  l1 ++ x :: r1 = l2 ++ y :: r2 →
  Forall (λ a, f a = false) l1 → Forall (λ a, f a = false) r1 →
  f y = true →
  l2 = l1 ∧ y = x ∧ r2 = r1.
Proof.
  revert l2. induction l1 as [|a l1 IH]; intros l2 Heq Hl Hr Hy.
  - destruct l2 as [|b l2]; cbn in Heq.
    + by injection Heq as -> ->.
    + injection Heq as -> ->.
      apply Forall_app in Hr as [_ Hr]. apply Forall_cons in Hr as [Hr _].
      congruence.
  - apply Forall_cons in Hl as [Ha Hl].
    destruct l2 as [|b l2]; cbn in Heq.
    + injection Heq as -> _. congruence.
    + injection Heq as -> Heq. destruct (IH l2 Heq Hl Hr Hy) as (-> & -> & ->).
      done.
Qed.

Lemma Forall_false_not_in {A} (f : A → bool) (l pre post : list A) (x : A) :
  Forall (λ a, f a = false) l → l = pre ++ x :: post → f x = true → False.
Proof.
  intros Hl -> Hx. apply Forall_app in Hl as [_ Hl].
  apply Forall_cons in Hl as [Hl _]. congruence.
Qed.

Lemma quiet_not_enum_failed ev : quiet ev = true → enum_failed ev = false.
Proof. by destruct ev as [| | | |[] ? []| | | |]. Qed.

Lemma quiet_not_serial_failed ev : quiet ev = true → serial_failed ev = false.
Proof. by destruct ev as [| | | |[] ? []| | | |]. Qed.

Lemma touch_error_serial_failed ev e :
  touch_error ev = Some e → serial_failed ev = true.
Proof. by destruct ev as [? ? []|? []| | | | | | |]. Qed.

Lemma Forall_fired (P : Event → Prop) cb F ev : P ev → Forall P (fired cb F ev).
Proof.
  intros H. unfold fired. destruct cb as [c|]; [destruct (F c)|]; auto.
Qed.

Lemma most_recent_app keep evs1 evs2 :
  most_recent keep (evs1 ++ evs2)
  = match most_recent keep evs2 with
    | Some m => Some m
    | None => most_recent keep evs1
    end.
Proof.
  unfold most_recent. rewrite omap_app.
  destruct (omap (snapshot keep) evs2) as [|m l] eqn:Hl using rev_ind.
  - by rewrite app_nil_r.
  - by rewrite app_assoc, !last_snoc.
Qed.

Lemma most_recent_cons keep ev evs :
  most_recent keep (ev :: evs)
  = match most_recent keep evs with
    | Some m => Some m
    | None => snapshot keep ev
    end.
Proof.
  change (ev :: evs) with ([ev] ++ evs). rewrite most_recent_app.
  destruct (most_recent keep evs); [done|].
  unfold most_recent. cbn. by destruct (snapshot keep ev).
Qed.

Lemma most_recent_none keep evs :
  Forall (λ ev, snapshot keep ev = None) evs → most_recent keep evs = None.
Proof.
  unfold most_recent. induction 1 as [|ev evs Hev _ IH]; [done|].
  cbn. by rewrite Hev.
Qed.

(** [Forall P] over a list given by its events *)
Ltac solve_Forall :=
  repeat first
    [ apply Forall_nil_2
    | apply Forall_cons_2
    | apply Forall_app_2
    | apply Forall_fired ];
  try done.

(** ** [range] *)

Lemma elem_of_insert_by rank (x a : string) (l : list string) :
  x ∈ insert_by rank a l ↔ x = a ∨ x ∈ l.
Proof.
  induction l as [|y l IH]; cbn.
  - rewrite list_elem_of_singleton, elem_of_nil. tauto.
  - destruct (rank a <=? rank y)%nat.
    + by rewrite elem_of_cons.
    + rewrite !elem_of_cons, IH. tauto.
Qed.

Section Facts.
Variable E : Env.

Lemma elem_of_range (m : portmap) (w : State) (p : string) :
  p ∈ range E m w ↔ is_Some (m !! p).
Proof.
  unfold range. generalize (range_rank E (ticks w)). intros rank.
  transitivity (p ∈ (map_to_list m).*1).
  - induction ((map_to_list m).*1) as [|y l IH]; cbn; [done|].
    rewrite elem_of_insert_by, elem_of_cons, IH. tauto.
  - rewrite list_elem_of_fmap. split.
    + intros [[k v] [-> Hin]]. apply elem_of_map_to_list in Hin. by exists v.
    + intros [v Hv]. exists (p, v). split; [done|]. by apply elem_of_map_to_list.
Qed.

Lemma range_singleton (k : string) (v : bool) (w : State) :
  range E {[k := v]} w = [k].
Proof. unfold range. by rewrite map_to_list_singleton. Qed.

Lemma first_new_Some (last m : portmap) (w : State) (p : string) :
  first_new E last m w = Some p → is_Some (m !! p) ∧ index last p = false.
Proof.
  unfold first_new. intros H. apply find_some in H as [Hin Hneg].
  apply list_elem_of_In, elem_of_range in Hin. split; [done|].
  by destruct (index last p).
Qed.

Lemma first_new_None (last m : portmap) (w : State) :
  first_new E last m w = None → ∀ p, is_Some (m !! p) → index last p = true.
Proof.
  unfold first_new. intros H p Hp.
  apply elem_of_range with (w := w), list_elem_of_In in Hp.
  pose proof (find_none _ _ H p Hp) as Hneg. cbn in Hneg.
  by destruct (index last p).
Qed.

Lemma has_new_true (last m : portmap) (w : State) :
  has_new E last m w = true ↔ ∃ p, is_Some (m !! p) ∧ index last p = false.
Proof.
  unfold has_new. rewrite existsb_exists. split.
  - intros (p & Hin & Hneg). exists p.
    apply list_elem_of_In, elem_of_range in Hin. split; [done|].
    by destruct (index last p).
  - intros (p & Hin & Hneg). exists p. split.
    + by apply list_elem_of_In, elem_of_range.
    + by rewrite Hneg.
Qed.

Lemma has_new_false (last m : portmap) (w : State) :
  has_new E last m w = false ↔ ∀ p, is_Some (m !! p) → index last p = true.
Proof.
  split.
  - intros H p Hp. destruct (index last p) eqn:Hi; [done|].
    assert (has_new E last m w = true) as Ht by (apply has_new_true; eauto).
    congruence.
  - intros H. destruct (has_new E last m w) eqn:Hn; [|done].
    apply has_new_true in Hn as (p & Hp & Hi). rewrite (H p Hp) in Hi. done.
Qed.

(** ** What the primitive operations do to the state *)

Lemma trace_fire cb F ev w : trace (fire E cb F ev w) = trace w ++ fired cb F ev.
Proof.
  unfold fire, fired. destruct cb as [c|]; [destruct (F c)|]; cbn;
    by rewrite ?app_nil_r.
Qed.

Lemma clock_fire cb F ev w : clock w <= clock (fire E cb F ev w).
Proof. unfold fire. destruct cb as [c|]; [destruct (F c)|]; cbn; lia. Qed.

Lemma emulatedPort_fire cb F ev w :
  emulatedPort (fire E cb F ev w) = emulatedPort w.
Proof. unfold fire. by destruct cb as [c|]; [destruct (F c)|]. Qed.

Lemma trace_emit ev w : trace (emit E ev w) = trace w ++ [ev].
Proof. done. Qed.

Lemma clock_emit ev w : clock w <= clock (emit E ev w).
Proof. cbn. lia. Qed.

Lemma trace_Sleep ms w : trace (Sleep E ms w) = trace w ++ [EvSleep ms].
Proof. done. Qed.

Lemma clock_Sleep ms w : clock w + ms <= clock (Sleep E ms w).
Proof. cbn. lia. Qed.

Lemma emulatedPort_Sleep ms w : emulatedPort (Sleep E ms w) = emulatedPort w.
Proof. done. Qed.

Lemma trace_ask pm w : trace (ask E pm w).2 = trace w.
Proof. by destruct pm. Qed.

Lemma clock_ask pm w : clock (ask E pm w).2 = clock w.
Proof. by destruct pm. Qed.

Lemma calls_ask pm w : calls (ask E pm w).2 = calls w.
Proof. by destruct pm. Qed.

Lemma trace_called pm site w :
  trace (called E pm site w)
  = trace w ++ [EvPortsMapper site (ask E pm w).1.1 (ask E pm w).1.2].
Proof. unfold called. cbn. by rewrite trace_ask. Qed.

Lemma clock_called pm site w : clock w <= clock (called E pm site w).
Proof. unfold called. cbn. rewrite clock_ask. lia. Qed.

Lemma emulatedPort_called pm site w :
  emulatedPort (called E pm site w) = emulatedPort (ask E pm w).2.
Proof. done. Qed.

End Facts.

Arguments emit : simpl never.
Arguments Sleep : simpl never.
Arguments fire : simpl never.
Arguments called : simpl never.
Arguments ask : simpl never.
Arguments has_new : simpl never.
Arguments first_new : simpl never.

Create Rewrite HintDb trace.
#[global] Hint Rewrite trace_emit trace_Sleep trace_fire trace_called : trace.

(** normalise a goal about the trace of a state built by the operations *)
Ltac traces :=
  autorewrite with trace; rewrite <- ?app_assoc; cbn [app];
  repeat (reflexivity || f_equal).

(** ** [Touch1200bps], case by case *)

Section TouchFacts.
Variable E : Env.

Lemma Touch1200bps_spec port w :
  ∃ evs, touch_spec E port w (Touch1200bps E port w).1 (Touch1200bps E port w).2 evs
         ∧ trace (Touch1200bps E port w).2 = trace w ++ evs
         ∧ clock w <= clock (Touch1200bps E port w).2
         ∧ emulatedPort (Touch1200bps E port w).2 = emulatedPort w
         ∧ calls (Touch1200bps E port w).2 = calls w.
Proof.
  unfold Touch1200bps.
  destruct (serial_Open E (ticks w) port 1200) as [e|] eqn:Hopen.
  { eexists. split; [by constructor|]. cbn. split; [traces|]. 
    pose proof (clock_emit E (EvOpen port 1200 (Some e)) w). done. }
  destruct (String.eqb (GOOS E) "windows") eqn:Hos; cbn [negb].
  - apply String.eqb_eq in Hos.
    eexists. split; [eapply touch_done_windows; try done|]; cbn.
    + unfold Sleep, emit. cbn. lia.
    + split; [traces|]. unfold Sleep, emit. cbn. split; [lia|done].
  - apply String.eqb_neq in Hos.
    destruct (serial_SetDTR E _ false) as [e|] eqn:Hdtr.
    + eexists. split; [by eapply touch_dtr_failed|]. cbn.
      split; [traces|]. unfold Sleep, emit. cbn. split; [lia|done].
    + eexists. split; [eapply touch_done; try done|]; cbn.
      * unfold Sleep, emit. cbn. lia.
      * split; [traces|]. unfold Sleep, emit. cbn. split; [lia|done].
Qed.

Lemma touch_spec_no_enum port w r w' tev :
  touch_spec E port w r w' tev → Forall (λ ev, enum_failed ev = false) tev.
Proof. intros H. inversion H; subst; solve_Forall. Qed.

Lemma touch_spec_failed port w e w' tev :
  touch_spec E port w (Some e) w' tev →
  ∃ tpre x cl,
    tev = tpre ++ x :: cl ∧ no_failure tpre ∧ no_failure cl
    ∧ touch_error x = Some e ∧ closing x cl.
Proof.
  intros H. inversion H as [e0 w0 Hopen|e0 c w0 Hopen Hos| |]; subst.
  - exists [], (EvOpen port 1200 (Some e0)), []. by repeat split.
  - exists [EvOpen port 1200 None], (EvSetDTR false (Some e0)), [EvClose c].
    repeat split; solve_Forall. by exists c.
Qed.

Lemma touch_spec_succeeded port w w' tev :
  touch_spec E port w None w' tev → no_failure tev.
Proof. intros H. inversion H; subst; solve_Forall. Qed.

End TouchFacts.

(** ** One iteration of the loop, case by case *)

Section PollFacts.
Variable E : Env.
Variable pm : Mapper.
Variable cb : option ResetProgressCallbacks.

Abbreviation dbg msg := (fired cb Debug (EvDebug msg)).

(** [poll] with the monad unfolded *)
Lemma poll_unfold last w :
  poll E pm cb last w =
  let now := (ask E pm w).1.1 in
  let w1 := called E pm SiteNow w in
  match (ask E pm w).1.2 with
  | Some e => (Return "" (Some e), w1)
  | None =>
    let w2 := fire E cb Debug (EvDebug (SprintfMap "WAIT: %v" now)) w1 in
    if has_new E last now w2 then
      let w3 := Sleep E 1000
                  (fire E cb Debug (EvDebug (Literal "New ports found!")) w2) in
      let check := (ask E pm w3).1.1 in
      let w4 := called E pm SiteCheck w3 in
      match (ask E pm w3).1.2 with
      | Some e => (Return "" (Some e), w4)
      | None =>
        let w5 := fire E cb Debug (EvDebug (SprintfMap "CHECK: %v" check)) w4 in
        match first_new E last check w5 with
        | Some p =>
          (Return p None,
           fire E cb BootloaderPortFound (EvBootloaderPortFound p) w5)
        | None =>
          (Next now,
           Sleep E 250
             (fire E cb Debug
                (EvDebug (Literal "Port check failed... still waiting")) w5))
        end
      end
    else (Next now, Sleep E 250 w2)
  end.
Proof.
  unfold poll, stabilize, debug, callback, callMapper, check_err, eval, exec,
    return_, mbind, M_bind, mret, M_ret.
  destruct (ask E pm w) as [[now [e|]] w0] eqn:Hask; cbn; [done|].
  destruct (has_new E last now _); cbn; [|done].
  destruct (ask E pm (Sleep E 1000 _)) as [[check [e|]] w0'] eqn:Hask'; cbn;
    [done|].
  by destruct (first_new E last check _).
Qed.

Lemma poll_ok last w :
  ∃ evs, poll_spec E pm cb last w (poll E pm cb last w).1 (poll E pm cb last w).2 evs
         ∧ trace (poll E pm cb last w).2 = trace w ++ evs
         ∧ clock w <= clock (poll E pm cb last w).2.
Proof.
  rewrite poll_unfold. cbv zeta.
  pose proof (clock_called E pm SiteNow w) as Hc1.
  destruct (ask E pm w) as [[now [e|]] w0] eqn:Hask; cbn [fst snd].
  { cbn [fst snd]. eexists. split; [by eapply poll_now_failed; rewrite Hask|].
    split; [|done]. autorewrite with trace. by rewrite Hask. }
  set (w2 := fire E cb Debug _ (called E pm SiteNow w)).
  assert (clock w <= clock w2) as Hc2
    by (etrans; [exact Hc1 | apply clock_fire]).
  destruct (has_new E last now w2) eqn:Hnew; cycle 1.
  { pose proof (clock_Sleep E 250 w2).
    pose proof (proj1 (has_new_false E _ _ _) Hnew) as Hnone.
    cbn [fst snd]. eexists. split; [eapply poll_nothing_new; rewrite ?Hask; try done; lia|].
    split; [|lia]. subst w2. autorewrite with trace. rewrite Hask. cbn.
      by rewrite <- !app_assoc. }
  apply has_new_true in Hnew.
  set (w3 := Sleep E 1000 _).
  assert (clock w <= clock w3) as Hc3.
  { subst w3. etrans; [|apply clock_Sleep].
    pose proof (clock_fire E cb Debug (EvDebug (Literal "New ports found!")) w2).
    lia. }
  pose proof (clock_called E pm SiteCheck w3) as Hc4.
  assert (trace w3 = trace w ++ EvPortsMapper SiteNow now None
            :: dbg (SprintfMap "WAIT: %v" now)
            ++ dbg (Literal "New ports found!") ++ [EvSleep 1000]) as Ht3.
  { subst w3 w2. autorewrite with trace. rewrite Hask. cbn.
    by rewrite <- !app_assoc. }
  destruct (ask E pm w3) as [[check [e|]] w0'] eqn:Hask'; cbn [fst snd].
  { cbn [fst snd]. eexists. split; [by eapply poll_check_failed; rewrite ?Hask|].
    split; [|lia]. autorewrite with trace. rewrite Hask', Ht3. cbn.
    rewrite <- !app_assoc. cbn. by rewrite <- !app_assoc. }
  set (w5 := fire E cb Debug _ (called E pm SiteCheck w3)).
  assert (clock w <= clock w5) as Hc5.
  { subst w5. etrans; [|apply clock_fire]. lia. }
  assert (trace w5 = trace w ++ EvPortsMapper SiteNow now None
            :: dbg (SprintfMap "WAIT: %v" now)
            ++ dbg (Literal "New ports found!")
            ++ [EvSleep 1000; EvPortsMapper SiteCheck check None]
            ++ dbg (SprintfMap "CHECK: %v" check)) as Ht5.
  { subst w5. autorewrite with trace. rewrite Hask', Ht3. cbn.
    rewrite <- !app_assoc. cbn. by rewrite <- !app_assoc. }
  destruct (first_new E last check w5) as [p|] eqn:Hfound.
  - apply first_new_Some in Hfound as [Hp Hnp].
    cbn [fst snd]. eexists. split; [by eapply poll_found; rewrite ?Hask|].
    split.
    + autorewrite with trace. rewrite Ht5. cbn.
      rewrite <- !app_assoc. cbn. by rewrite <- !app_assoc.
    + etrans; [|apply clock_fire]. done.
  - pose proof (first_new_None E _ _ _ Hfound) as Hnone.
    set (w6 := fire E cb Debug _ w5).
    assert (clock w5 <= clock w6) by apply clock_fire.
    pose proof (clock_Sleep E 250 w6).
    cbn [fst snd]. eexists. split; [eapply poll_glitch; rewrite ?Hask; try done; lia|].
    split; [|lia]. subst w6. autorewrite with trace. rewrite Ht5. cbn.
    rewrite <- !app_assoc. cbn. by rewrite <- !app_assoc.
Qed.

End PollFacts.

Section PollConsequences.
Variable E : Env.
Variable pm : Mapper.
Variable cb : option ResetProgressCallbacks.

(** An iteration that falls through takes at least the 250 ms of its sleep. *)
Lemma poll_Next_clock last w now w1 :
  poll E pm cb last w = (Next now, w1) → clock w + 250 <= clock w1.
Proof.
  intros H. destruct (poll_ok E pm cb last w) as (evs & Hspec & _).
  rewrite H in Hspec. cbn in Hspec. by inversion Hspec.
Qed.

Lemma poll_Next_quiet last w now w1 evs :
  poll_spec E pm cb last w (Next now) w1 evs → Forall (λ ev, quiet ev = true) evs.
Proof. intros H. inversion H; subst; solve_Forall. Qed.

(** After an iteration that falls through, [last] is the snapshot [now] of
    that iteration, whether or not a stabilisation check came after it. *)
Lemma poll_Next_baseline last w now w1 :
  poll E pm cb last w = (Next now, w1) →
  latest_but_checks (trace w1) = Some now.
Proof.
  intros Hpoll. destruct (poll_ok E pm cb last w) as (evs & Hspec & Ht & _).
  rewrite Hpoll in Hspec, Ht. cbn [fst snd] in *. rewrite Ht.
  unfold latest_but_checks.
  inversion Hspec; subst;
    rewrite most_recent_app, most_recent_cons, most_recent_none;
    solve_Forall.
Qed.

End PollConsequences.

Section PollEvents.
Variable E : Env.

Lemma poll_spec_no_failure pm cb last w r w' evs :
  poll_spec E pm cb last w r w' evs → no_failure evs.
Proof. intros H. inversion H; subst; solve_Forall. Qed.

End PollEvents.

(** What the code guarantees of a port returned by an iteration: some port
    was new in [now], and the returned port is a key of [check] that [last]
    does not hold. It need not be a key of [now]. *)
Lemma poll_found_port E pm cb last w p w' :
  poll E pm cb last w = (Return p None, w') →
  ∃ now check pre post,
    trace w' = trace w ++ EvPortsMapper SiteNow now None
                 :: pre ++ EvPortsMapper SiteCheck check None :: post
    ∧ (∃ q, is_Some (now !! q) ∧ index last q = false)
    ∧ is_Some (check !! p) ∧ index last p = false.
Proof.
  intros Hpoll. destruct (poll_ok E pm cb last w) as (evs & Hspec & Ht & _).
  rewrite Hpoll in Hspec, Ht. cbn [fst snd] in *.
  inversion Hspec as [| | |now check p0 w0 Hask Hq Hp Hi|]; subst.
  exists now, check,
    (fired cb Debug (EvDebug (SprintfMap "WAIT: %v" now))
     ++ fired cb Debug (EvDebug (Literal "New ports found!")) ++ [EvSleep 1000]),
    (fired cb Debug (EvDebug (SprintfMap "CHECK: %v" check))
     ++ fired cb BootloaderPortFound (EvBootloaderPortFound p)).
  split; [|done]. rewrite Ht. by rewrite <- !app_assoc.
Qed.

(** ** [Reset] before the loop, case by case *)

Section BeforeLoopFacts.
Variable E : Env.
Variable pm : Mapper.
Variable cb : option ResetProgressCallbacks.

Abbreviation dbg msg := (fired cb Debug (EvDebug msg)).

Lemma touch_block_unfold port wait dryRun w :
  touch_block E cb port wait dryRun w =
  let w1 := fire E cb TouchingPort (EvTouchingPort port)
              (fire E cb Debug (EvDebug (SprintfStr "TOUCH: %v" port)) w) in
  if dryRun then (Next tt, w1)
  else
    let r := Touch1200bps E port w1 in
    match r.1 with
    | Some err =>
      if negb wait then (Return "" (Some (ErrWrap "1200-bps touch" err)), r.2)
      else (Next tt, r.2)
    | None => (Next tt, r.2)
    end.
Proof.
  unfold touch_block, debug, callback, touch, exec, return_,
    mbind, M_bind, mret, M_ret.
  destruct dryRun; cbn; [done|].
  destruct (Touch1200bps E port _) as [[e|] w2]; cbn; [|done].
  by destruct wait.
Qed.

Lemma touch_block_ok port wait dryRun w :
  ∃ evs,
    touch_block_spec E cb port wait dryRun w
      (touch_block E cb port wait dryRun w).1
      (touch_block E cb port wait dryRun w).2 evs
    ∧ trace (touch_block E cb port wait dryRun w).2 = trace w ++ evs
    ∧ clock w <= clock (touch_block E cb port wait dryRun w).2
    ∧ emulatedPort (touch_block E cb port wait dryRun w).2 = emulatedPort w.
Proof.
  rewrite touch_block_unfold. cbv zeta.
  set (w1 := fire E cb TouchingPort _ (fire E cb Debug _ w)).
  assert (clock w <= clock w1) as Hc1.
  { subst w1. etrans; [|apply clock_fire]. apply clock_fire. }
  assert (trace w1 = trace w ++ touch_block_events cb port []) as Ht1.
  { subst w1. unfold touch_block_events. autorewrite with trace.
    by rewrite app_nil_r, <- app_assoc. }
  assert (emulatedPort w1 = emulatedPort w) as He1.
  { subst w1. by rewrite !emulatedPort_fire. }
  destruct dryRun.
  { cbn [fst snd]. eexists. split; [by apply tb_dry|]. done. }
  destruct (Touch1200bps_spec E port w1) as (tev & Hspec & Ht & Hc & He & _).
  assert (trace (Touch1200bps E port w1).2
          = trace w ++ touch_block_events cb port tev) as Ht2.
  { rewrite Ht, Ht1. unfold touch_block_events.
    by rewrite app_nil_r, <- !app_assoc. }
  destruct (Touch1200bps E port w1) as [[e|] w2]; cbn [fst snd] in *.
  - destruct wait; cbn [negb fst snd].
    + eexists. split; [by eapply tb_swallowed|].
      split; [done|]. split; [lia|congruence].
    + eexists. split; [by eapply tb_aborted|].
      split; [done|]. split; [lia|congruence].
  - eexists. split; [by eapply tb_touched|].
    split; [done|]. split; [lia|congruence].
Qed.

Lemma before_loop_unfold port wait dryRun w :
  before_loop E pm cb port wait dryRun w =
  let last := (ask E pm w).1.1 in
  let w1 := fire E cb Debug (EvDebug (SprintfMap "LAST: %v" last))
              (called E pm SiteLast w) in
  match (ask E pm w).1.2 with
  | Some e => (Return "" (Some e), w1)
  | None =>
    let r := if negb (String.eqb port "") && index last port
             then touch_block E cb port wait dryRun w1
             else (Next tt, w1) in
    match r.1 with
    | Return p e => (Return p e, r.2)
    | Next _ =>
      if negb wait then (Return "" None, r.2)
      else (Next last,
            fire E cb WaitingForNewSerial EvWaitingForNewSerial r.2)
    end
  end.
Proof.
  unfold before_loop, debug, callback, callMapper, check_err, exec, return_,
    mbind, M_bind, mret, M_ret.
  destruct (ask E pm w) as [[last [e|]] w0] eqn:Hask; cbn; [done|].
  destruct (negb (String.eqb port "") && index last port); cbn.
  - destruct (touch_block E cb port wait dryRun _) as [[[]|p e] w2]; cbn;
      [|done].
    by destruct wait.
  - by destruct wait.
Qed.

Lemma before_loop_ok port wait dryRun w :
  ∃ evs,
    before_loop_spec E pm cb port wait dryRun w
      (before_loop E pm cb port wait dryRun w).1
      (before_loop E pm cb port wait dryRun w).2 evs
    ∧ trace (before_loop E pm cb port wait dryRun w).2 = trace w ++ evs
    ∧ clock w <= clock (before_loop E pm cb port wait dryRun w).2
    ∧ emulatedPort (before_loop E pm cb port wait dryRun w).2
      = emulatedPort (ask E pm w).2.
Proof.
  rewrite before_loop_unfold. cbv zeta.
  set (w1 := fire E cb Debug _ (called E pm SiteLast w)).
  assert (clock w <= clock w1) as Hc1.
  { subst w1. etrans; [|apply clock_fire]. apply clock_called. }
  assert (emulatedPort w1 = emulatedPort (ask E pm w).2) as He1.
  { subst w1. by rewrite emulatedPort_fire. }
  assert (trace w1 = trace w ++ head_events cb (ask E pm w).1.1 (ask E pm w).1.2 [])
    as Ht1.
  { subst w1. unfold head_events. autorewrite with trace.
    by rewrite app_nil_r, <- app_assoc. }
  destruct (ask E pm w) as [[last [e|]] w0] eqn:Hask; cbn [fst snd] in *.
  { eexists. split; [by eapply bl_enum_failed; rewrite Hask|]. done. }
  destruct (String.eqb_spec port "") as [Hp|Hp]; cbn [negb andb].
  { cbn [fst snd]. destruct wait; cbn [negb fst snd].
    - eexists. split; [eapply bl_waiting with (w1 := w1) (w2 := w1);
        rewrite ?Hask; try done; by right; split; [left|]|].
      split; [|split].
      + autorewrite with trace. rewrite Ht1. by rewrite <- !app_assoc.
      + etrans; [exact Hc1|apply clock_fire].
      + by rewrite emulatedPort_fire.
    - eexists. split; [eapply bl_no_wait with (w1 := w1);
        rewrite ?Hask; try done; by right; split; [left|]|].
      done. }
  destruct (index last port) eqn:Hidx; cycle 1.
  { cbn [fst snd]. destruct wait; cbn [negb fst snd].
    - eexists. split; [eapply bl_waiting with (w1 := w1) (w2 := w1);
        rewrite ?Hask; try done; by right; split; [right|]|].
      split; [|split].
      + autorewrite with trace. rewrite Ht1. by rewrite <- !app_assoc.
      + etrans; [exact Hc1|apply clock_fire].
      + by rewrite emulatedPort_fire.
    - eexists. split; [eapply bl_no_wait with (w1 := w1);
        rewrite ?Hask; try done; by right; split; [right|]|].
      done. }
  destruct (touch_block_ok port wait dryRun w1) as (tbev & Hspec & Ht & Hc & He).
  assert (trace (touch_block E cb port wait dryRun w1).2
          = trace w ++ head_events cb last None tbev) as Ht2.
  { rewrite Ht, Ht1. unfold head_events. cbn.
    by rewrite app_nil_r, <- !app_assoc. }
  destruct (touch_block E cb port wait dryRun w1) as [[[]|p e] w2];
    cbn [fst snd] in *.
  - destruct wait; cbn [negb fst snd].
    + eexists. split; [eapply bl_waiting with (w1 := w1) (w2 := w2);
        rewrite ?Hask; try done; by left|].
      split; [|split].
      * autorewrite with trace. by rewrite Ht2, <- app_assoc.
      * etrans; [|apply clock_fire]. lia.
      * rewrite emulatedPort_fire. congruence.
    + eexists. split; [eapply bl_no_wait with (w1 := w1);
        rewrite ?Hask; try done; by left|].
      split; [done|]. split; [lia|congruence].
  - eexists. split; [by eapply bl_touch_aborted; rewrite ?Hask|].
    split; [done|]. split; [lia|congruence].
Qed.

End BeforeLoopFacts.

Section TouchBlockEvents.
Variable E : Env.

Lemma touch_block_no_enum cb port wait dryRun w r w' tbev :
  touch_block_spec E cb port wait dryRun w r w' tbev →
  Forall (λ ev, enum_failed ev = false) tbev.
Proof.
  intros H. inversion H; subst; unfold touch_block_events; solve_Forall;
    by eapply touch_spec_no_enum.
Qed.

(** the events before those of [Touch1200bps] *)
Lemma head_events_touch cb last port tev :
  head_events cb last None (touch_block_events cb port tev)
  = head_events cb last None (touch_block_events cb port []) ++ tev.
Proof.
  unfold head_events, touch_block_events.
  by rewrite app_nil_r, <- app_comm_cons, <- !app_assoc.
Qed.

Lemma head_events_no_failure cb last err port :
  no_failure (head_events cb last err (touch_block_events cb port [])).
Proof. unfold head_events, touch_block_events. solve_Forall. Qed.

(** Without a failing step of the touch in it, the touch block has none. *)
Lemma touch_block_no_failure cb port wait dryRun w r w' tbev :
  touch_block_spec E cb port wait dryRun w r w' tbev →
  no_failure (head_events cb ∅ None tbev)
  ∨ ∃ e tev tpre x cl,
      tbev = touch_block_events cb port tev
      ∧ tev = tpre ++ x :: cl ∧ no_failure tpre ∧ no_failure cl
      ∧ touch_error x = Some e ∧ closing x cl
      ∧ (if wait then r = Next tt
         else r = Return "" (Some (ErrWrap "1200-bps touch" e))).
Proof.
  intros H.
  inversion H as [w0 Hd|w1 w0 tev Hd Hts|e w1 w0 tev Hd Hw Hts
                 |e w1 w0 tev Hd Hw Hts]; subst.
  - left. apply head_events_no_failure.
  - left. rewrite head_events_touch.
    apply Forall_app_2; [apply head_events_no_failure|].
    by eapply touch_spec_succeeded.
  - right. apply touch_spec_failed in Hts
      as (tpre & x & cl & -> & Hpre & Hcl & Hx & Hc).
    by exists e, (tpre ++ x :: cl), tpre, x, cl.
  - right. apply touch_spec_failed in Hts
      as (tpre & x & cl & -> & Hpre & Hcl & Hx & Hc).
    by exists e, (tpre ++ x :: cl), tpre, x, cl.
Qed.

Lemma head_events_no_failure_any cb last last' tbev :
  no_failure (head_events cb last None tbev) →
  no_failure (head_events cb last' None tbev).
Proof.
  unfold head_events. intros H. apply Forall_cons in H as [_ H].
  apply Forall_app in H as [_ H]. solve_Forall.
Qed.

End TouchBlockEvents.

Section BeforeLoopConsequences.
Variable E : Env.
Variable pm : Mapper.
Variable cb : option ResetProgressCallbacks.

Lemma before_loop_baseline port wait dryRun w last w0 :
  before_loop E pm cb port wait dryRun w = (Next last, w0) →
  latest_but_checks (trace w0) = Some last.
Proof.
  intros Hbl.
  destruct (before_loop_ok E pm cb port wait dryRun w) as (evs & Hspec & Ht & _).
  rewrite Hbl in Hspec, Ht. cbn [fst snd] in *. rewrite Ht.
  unfold latest_but_checks.
  inversion Hspec as [| | |last0 w1 w2 w3 tbev Hask Hw Htb]; subst.
  unfold head_events.
  rewrite most_recent_app, <- app_comm_cons, most_recent_cons, most_recent_none;
    [done|].
  solve_Forall. destruct Htb as [(_ & _ & Htb)|[_ ->]]; [|done].
  inversion Htb as [|? ? ? ? Hts|? ? ? ? ? ? Hts|]; subst;
    unfold touch_block_events; solve_Forall;
    inversion Hts; subst; solve_Forall.
Qed.

End BeforeLoopConsequences.

(** ** The loop *)

Section LoopFacts.
Variable E : Env.
Variable pm : Mapper.
Variable cb : option ResetProgressCallbacks.
Variable deadline : Z.

(** How the loop ends: at a loop head reached by [iterates], either the
    deadline has passed or the iteration returns. *)
Lemma wait_loop_unroll fuel last w r w' :
  wait_loop E pm cb deadline fuel last w = Some (r, w') →
  ∃ last1 w1,
    iterates E pm cb deadline last w last1 w1
    ∧ (deadline <= clock w1 ∧ r = Next tt ∧ w' = w1
       ∨ clock w1 < deadline
         ∧ ∃ p e, r = Return p e ∧ poll E pm cb last1 w1 = (Return p e, w')).
Proof.
  revert last w. induction fuel as [|fuel IH]; intros last w; cbn; [done|].
  destruct (Z.ltb_spec (clock w) deadline) as [Hlt|Hge].
  - destruct (poll E pm cb last w) as [[now|p e] w1] eqn:Hpoll.
    + intros H. apply IH in H as (last1 & w2 & Hit & Hend).
      exists last1, w2. split; [|done]. by eapply iterates_step.
    + intros [= <- <-]. exists last, w. split; [constructor|].
      right. split; [done|]. by exists p, e.
  - intros [= <- <-]. exists last, w. split; [constructor|]. by left.
Qed.

(** The loop ends: [fuel] is enough as soon as it covers one iteration per
    250 ms left to the deadline, and the final test. *)
Lemma wait_loop_total fuel last w :
  deadline - clock w <= 250 * Z.of_nat fuel →
  is_Some (wait_loop E pm cb deadline (S fuel) last w).
Proof.
  revert last w. induction fuel as [|fuel IH]; intros last w Hfuel.
  - cbn. destruct (Z.ltb_spec (clock w) deadline); [lia|done].
  - cbn [wait_loop]. destruct (Z.ltb_spec (clock w) deadline); [|done].
    destruct (poll E pm cb last w) as [[now|p e] w1] eqn:Hpoll; [|done].
    apply IH. apply poll_Next_clock in Hpoll. lia.
Qed.

Lemma wait_loop_fuel_mono fuel fuel' last w r :
  (fuel <= fuel')%nat →
  wait_loop E pm cb deadline fuel last w = Some r →
  wait_loop E pm cb deadline fuel' last w = Some r.
Proof.
  revert fuel' last w. induction fuel as [|fuel IH]; intros fuel' last w Hle;
    [done|].
  destruct fuel' as [|fuel']; [lia|]. cbn.
  destruct (clock w <? deadline); [|done].
  destruct (poll E pm cb last w) as [[now|p e] w1]; [|done].
  apply IH. lia.
Qed.

(** A property of loop heads that every falling-through iteration keeps
    holds at every loop head. *)
Lemma iterates_ind_inv (I : portmap → State → Prop) last w last' w' :
  (∀ last w now w1,
     clock w < deadline → poll E pm cb last w = (Next now, w1) →
     I last w → I now w1) →
  iterates E pm cb deadline last w last' w' → I last w → I last' w'.
Proof. intros Hstep Hit. induction Hit; eauto. Qed.

End LoopFacts.

Section LoopConsequences.
Variable E : Env.
Variable pm : Mapper.
Variable cb : option ResetProgressCallbacks.
Variable deadline : Z.

(** Iterations that fall through until the deadline has passed are what the
    loop runs, given fuel. *)
Lemma iterates_wait_loop last w last' w' :
  iterates E pm cb deadline last w last' w' →
  deadline <= clock w' →
  ∃ fuel, wait_loop E pm cb deadline fuel last w = Some (Next tt, w').
Proof.
  induction 1 as [last w|last w now w1 last' w' Hd Hpoll Hit IH]; intros Hend.
  - exists 1%nat. cbn. destruct (Z.ltb_spec (clock w) deadline); [lia|done].
  - destruct (IH Hend) as [fuel Hfuel]. exists (S fuel). cbn.
    destruct (Z.ltb_spec (clock w) deadline); [|lia]. by rewrite Hpoll.
Qed.

Lemma iterates_wait_loop_41 fuel last w last' w' :
  iterates E pm cb deadline last w last' w' →
  deadline <= clock w' →
  deadline - clock w <= 10000 →
  (41 <= fuel)%nat →
  wait_loop E pm cb deadline fuel last w = Some (Next tt, w').
Proof.
  intros Hit Hend Hd Hfuel.
  destruct (iterates_wait_loop _ _ _ _ Hit Hend) as [fuel0 H0].
  destruct (wait_loop_total E pm cb deadline 40 last w) as [r Hr]; [lia|].
  apply (wait_loop_fuel_mono E pm cb deadline 41 fuel) in Hr as Hr'; [|done].
  rewrite Hr'. f_equal.
  apply (wait_loop_fuel_mono E pm cb deadline 41 (41 + fuel0)) in Hr; [|lia].
  apply (wait_loop_fuel_mono E pm cb deadline fuel0 (41 + fuel0)) in H0; [|lia].
  congruence.
Qed.

End LoopConsequences.

Section IteratesEvents.
Variable E : Env.
Variable pm : Mapper.
Variable cb : option ResetProgressCallbacks.

(** The iterations that fall through add quiet events only, and time. *)
Lemma iterates_events deadline last w last' w' :
  iterates E pm cb deadline last w last' w' →
  ∃ evs, trace w' = trace w ++ evs
         ∧ Forall (λ ev, quiet ev = true) evs
         ∧ clock w <= clock w'.
Proof.
  induction 1 as [last w|last w now w1 last' w' Hd Hpoll Hit IH].
  - exists []. by rewrite app_nil_r.
  - destruct IH as (evs2 & Ht2 & Hq2 & Hc2).
    destruct (poll_ok E pm cb last w) as (evs1 & Hspec & Ht1 & Hc1).
    rewrite Hpoll in Hspec, Ht1, Hc1. cbn [fst snd] in *.
    exists (evs1 ++ evs2). split; [|split].
    + by rewrite Ht2, Ht1, <- app_assoc.
    + apply Forall_app_2; [by eapply poll_Next_quiet|done].
    + lia.
Qed.

End IteratesEvents.

Section LoopEvents.
Variable E : Env.

(** The loop starts with an enumeration, and no step of a touch occurs
    in it. *)
Lemma loop_events pm cb deadline last w1 last' w2 p err w' :
  iterates E pm cb deadline last w1 last' w2 →
  (deadline <= clock w2
     ∧ w' = fire E cb BootloaderPortFound (EvBootloaderPortFound "") w2
   ∨ clock w2 < deadline
     ∧ poll E pm cb last' w2 = (Return p err, w')) →
  clock w1 < deadline →
  ∃ now err0 rest,
    trace w' = trace w1 ++ EvPortsMapper SiteNow now err0 :: rest
    ∧ no_failure rest.
Proof.
  intros Hit Hend Hd.
  assert (∃ fev, trace w' = trace w2 ++ fev ∧ no_failure fev)
    as (fev & Htf & Hfev).
  { destruct Hend as [(_ & ->)|(_ & Hpoll)].
    - eexists. split; [by autorewrite with trace|solve_Forall].
    - destruct (poll_ok E pm cb last' w2) as (fev & Hfin & Htf & _).
      rewrite Hpoll in Hfin, Htf. cbn [fst snd] in *.
      exists fev. split; [done|]. by eapply poll_spec_no_failure. }
  inversion Hit as [|last0 w0 now w3 last3 w4 Hlt Hpoll Hit']; subst.
  - destruct Hend as [(Hge & _)|(_ & Hpoll)]; [lia|].
    destruct (poll_ok E pm cb last' w2) as (fev' & Hfin & Htf' & _).
    rewrite Hpoll in Hfin, Htf'. cbn [fst snd] in *. rewrite Htf'.
    inversion Hfin; subst; eexists _, _, _; (split; [done|solve_Forall]).
  - destruct (poll_ok E pm cb last w1) as (evs1 & Hspec & Ht1 & _).
    rewrite Hpoll in Hspec, Ht1. cbn [fst snd] in *.
    apply iterates_events in Hit' as (itev & Hti & Hq & _).
    assert (no_failure itev) as Hitev.
    { eapply Forall_impl; [exact Hq|]. apply quiet_not_serial_failed. }
    rewrite Htf, Hti, Ht1.
    inversion Hspec; subst; eexists _, _, _;
      (split; [by rewrite <- !app_assoc, <- app_comm_cons|solve_Forall]).
Qed.

End LoopEvents.

(** ** [Reset] as a whole *)

Section ResetFacts.
Variable E : Env.

(** The ways out of [Reset]. *)
Lemma Reset_cases fuel port wait dryRun portsMapper cb w p err w' :
  Reset E fuel port wait dryRun portsMapper cb w = Some ((p, err), w') →
  let s := select_mapper port dryRun portsMapper w in
  before_loop E s.1 cb port wait dryRun s.2 = (Return p err, w')
  ∨ ∃ last w1 last' w2,
      before_loop E s.1 cb port wait dryRun s.2 = (Next last, w1)
      ∧ iterates E s.1 cb (deadline_of dryRun w1) last w1 last' w2
      ∧ (deadline_of dryRun w1 <= clock w2 ∧ p = "" ∧ err = None
         ∧ w' = fire E cb BootloaderPortFound (EvBootloaderPortFound "") w2
         ∨ clock w2 < deadline_of dryRun w1
           ∧ poll E s.1 cb last' w2 = (Return p err, w')).
Proof.
  unfold Reset. cbv zeta.
  destruct (before_loop E _ cb port wait dryRun _) as [[last|p0 e0] w1]
    eqn:Hbl.
  - destruct (wait_loop E _ cb _ fuel last w1) as [[r w2]|] eqn:Hloop; [|done].
    apply wait_loop_unroll in Hloop
      as (last' & w3 & Hit & [(Hd & Hr & Hw)|(Hd & p1 & e1 & Hr & Hpoll)]);
      subst r.
    + subst w3. intros [= <- <- <-]. right. exists last, w1, last', w2.
      split; [done|]. split; [done|]. by left.
    + intros [= <- <- <-]. right. exists last, w1, last', w3.
      split; [done|]. split; [done|]. by right.
  - intros [= <- <- <-]. by left.
Qed.

Lemma trace_select_mapper port dryRun portsMapper w :
  trace (select_mapper port dryRun portsMapper w).2 = trace w.
Proof. unfold select_mapper. by destruct dryRun. Qed.

(** [Reset] returns: 41 units of fuel cover the 40 iterations that fit in
    the 10 seconds before the deadline, and the final test. *)
Lemma Reset_total fuel port wait dryRun portsMapper cb w :
  (41 <= fuel)%nat →
  is_Some (Reset E fuel port wait dryRun portsMapper cb w).
Proof.
  intros Hfuel. unfold Reset. cbv zeta.
  destruct (before_loop E _ cb port wait dryRun _) as [[last|p0 e0] w1]; [|done].
  destruct (wait_loop_total E (select_mapper port dryRun portsMapper w).1 cb
              (deadline_of dryRun w1) 40 last w1) as [r Hr].
  { unfold deadline_of. destruct dryRun; lia. }
  rewrite (wait_loop_fuel_mono _ _ _ _ 41 fuel _ _ r Hfuel Hr).
  by destruct r as [[[]|p e] w2].
Qed.

(** A run has no failed enumeration, or it has one, which ends it. *)
Lemma Reset_enum_shape fuel port wait dryRun portsMapper cb w p err w' :
  Reset E fuel port wait dryRun portsMapper cb w = Some ((p, err), w') →
  ∃ evs, trace w' = trace w ++ evs
    ∧ (Forall (λ ev, enum_failed ev = false) evs
       ∨ ∃ clean site res e,
           evs = clean ++ EvPortsMapper site res (Some e)
                          :: after_failure cb site res
           ∧ Forall (λ ev, enum_failed ev = false) clean
           ∧ p = "" ∧ err = Some e).
Proof.
  intros HR. apply Reset_cases in HR. cbv zeta in HR.
  set (s := select_mapper port dryRun portsMapper w) in *.
  destruct (before_loop_ok E s.1 cb port wait dryRun s.2)
    as (hev & Hspec & Ht & _).
  assert (trace s.2 = trace w) as Hs by apply trace_select_mapper.
  rewrite Hs in Ht.
  destruct HR as [Hbl|(last & w1 & last' & w2 & Hbl & Hit & Hend)];
    rewrite Hbl in Hspec, Ht; cbn [fst snd] in *.
  - exists hev. split; [done|].
    inversion Hspec as [last e w0 Hask|last w1 p0 e0 w0 tbev Hask Hp Hi Htb
                       |last w1 w0 tbev Hask Hw Htb|]; subst.
    + right. exists [], SiteLast, last, e. unfold head_events.
      by rewrite app_nil_r.
    + left. unfold head_events. solve_Forall. by eapply touch_block_no_enum.
    + left. unfold head_events. solve_Forall.
      destruct Htb as [(_ & _ & Htb)|[_ ->]]; [|done].
      by eapply touch_block_no_enum.
  - assert (Forall (λ ev, enum_failed ev = false) hev) as Hhev.
    { inversion Hspec as [| | |last0 w0 w3 w4 tbev Hask Hw Htb]; subst.
      unfold head_events. solve_Forall.
      destruct Htb as [(_ & _ & Htb)|[_ ->]]; [|done].
      by eapply touch_block_no_enum. }
    apply iterates_events in Hit as (itev & Hti & Hq & _).
    assert (Forall (λ ev, enum_failed ev = false) itev) as Hitev.
    { eapply Forall_impl; [exact Hq|]. apply quiet_not_enum_failed. }
    destruct Hend as [(_ & -> & -> & ->)|(_ & Hpoll)].
    + exists (hev ++ itev ++ fired cb BootloaderPortFound (EvBootloaderPortFound "")).
      split.
      * autorewrite with trace. by rewrite Hti, Ht, <- !app_assoc.
      * left. solve_Forall.
    + destruct (poll_ok E s.1 cb last' w2) as (fev & Hfin & Htf & _).
      rewrite Hpoll in Hfin, Htf. cbn [fst snd] in *.
      exists (hev ++ itev ++ fev). split.
      { by rewrite Htf, Hti, Ht, <- !app_assoc. }
      inversion Hfin as [now e w0 Hask| |now check e w0 Hask Hq'
                        |now check p0 w0 Hask Hq' Hp Hi|]; subst.
      * right. exists (hev ++ itev), SiteNow, now, e.
        split; [by rewrite <- app_assoc|]. split; [solve_Forall|done].
      * right.
        exists (hev ++ itev ++ EvPortsMapper SiteNow now None
                  :: fired cb Debug (EvDebug (SprintfMap "WAIT: %v" now))
                  ++ fired cb Debug (EvDebug (Literal "New ports found!"))
                  ++ [EvSleep 1000]), SiteCheck, check, e.
        split; [|split; [solve_Forall|done]].
        cbn. rewrite <- !app_assoc. cbn. by rewrite <- !app_assoc.
      * left. solve_Forall.
Qed.

Lemma split_failure (H1 tev H2 pre post tpre cl : list Event) (ev x : Event) :
  H1 ++ tev ++ H2 = pre ++ ev :: post →
  tev = tpre ++ x :: cl →
  no_failure H1 → no_failure tpre → no_failure cl → no_failure H2 →
  serial_failed ev = true →
  ev = x ∧ post = cl ++ H2.
Proof.
  intros Heq -> HH1 Htpre Hcl HH2 Hev.
  assert ((H1 ++ tpre) ++ x :: (cl ++ H2) = pre ++ ev :: post) as Heq'.
  { rewrite <- Heq. by rewrite <- !app_assoc. }
  apply unique_split with (f := serial_failed) in Heq' as (_ & -> & ->);
    [done| | |done]; solve_Forall.
Qed.

End ResetFacts.

(** ** The dry-run emulator *)

Section EmulatorFacts.
Variable E : Env.

Lemma ask_Emulator w :
  (ask E Emulator w).1 = (emulated_ports (emulatedPort w), None)
  ∧ emulatedPort (ask E Emulator w).2 = next_emulated (emulatedPort w)
  ∧ clock (ask E Emulator w).2 = clock w.
Proof.
  unfold ask, emulator, emulated_ports, next_emulated. cbn.
  split; [|done]. by destruct (String.eqb (emulatedPort w) "").
Qed.

Lemma next_emulated_idem port : next_emulated (next_emulated port) = next_emulated port.
Proof.
  unfold next_emulated.
  destruct (HasSuffix port "999") eqn:H999.
  - by rewrite HasSuffix_app_0, app_0_not_empty.
  - destruct (String.eqb_spec port "") as [->|Hne]; [done|].
    rewrite H999. by destruct (String.eqb_spec port "").
Qed.

Lemma next_emulated_not_empty port : next_emulated port ≠ "".
Proof.
  unfold next_emulated. destruct (HasSuffix port "999").
  - intros H. pose proof (app_0_not_empty port) as H'.
    rewrite H in H'. done.
  - by destruct (String.eqb_spec port "").
Qed.

Lemma emulatedPort_iter n w :
  emulatedPort (Nat.iter n (λ w, (ask E Emulator w).2) w)
  = Nat.iter n next_emulated (emulatedPort w).
Proof.
  induction n as [|n IH]; [done|]. rewrite !Nat.iter_succ.
  destruct (ask_Emulator (Nat.iter n (λ w, (ask E Emulator w).2) w))
    as (_ & -> & _).
  by rewrite IH.
Qed.

Lemma next_emulated_iter n port :
  Nat.iter (S n) next_emulated port = next_emulated port.
Proof.
  induction n as [|n IH]; [done|].
  rewrite Nat.iter_succ, IH. apply next_emulated_idem.
Qed.

End EmulatorFacts.

Section DryRunFacts.
Variable E : Env.
Variable cb : option ResetProgressCallbacks.

Lemma has_new_singleton last q v w :
  has_new E last {[q := v]} w = negb (index last q).
Proof. unfold has_new. rewrite range_singleton. cbn. apply orb_false_r. Qed.

Lemma first_new_singleton last q v w :
  first_new E last {[q := v]} w = if index last q then None else Some q.
Proof.
  unfold first_new. rewrite range_singleton. cbn. by destruct (index last q).
Qed.

Lemma emulated_ports_not_empty q : q ≠ "" → emulated_ports q = {[q := true]}.
Proof.
  intros Hq. unfold emulated_ports. by destruct (String.eqb_spec q "").
Qed.

(** In a dry run the code before the loop falls through with the first
    answer of the emulator as [last]. *)
Lemma before_loop_dry target w :
  emulatedPort w = target →
  ∃ w1,
    before_loop E Emulator cb target true true w
      = (Next (emulated_ports target), w1)
    ∧ emulatedPort w1 = next_emulated target
    ∧ clock w <= clock w1.
Proof.
  intros Htarget.
  destruct (before_loop_ok E Emulator cb target true true w)
    as (evs & Hspec & _ & Hc & He).
  destruct (ask_Emulator E w) as (Hask & Hep & _).
  rewrite Hep, Htarget in He. rewrite Htarget in Hask.
  destruct (before_loop E Emulator cb target true true w) as [r w1].
  cbn [fst snd] in *. exists w1.
  inversion Hspec as [last e w0 Hask'|last w2 p e w0 tbev Hask' Hp Hi Htb
                     |last w2 w0 tbev Hask' Hw|last w2 w3 w0 tbev Hask' Hw];
    subst; rewrite Hask in Hask'; try done.
  - inversion Htb; done.
  - by injection Hask' as <-.
Qed.

(** An iteration of a dry run, once [emulatedPort] has settled on [q]. *)
Lemma poll_dry last w q :
  emulatedPort w = q → next_emulated q = q → q ≠ "" →
  (index last q = false →
   ∃ w', poll E Emulator cb last w = (Return q None, w'))
  ∧ (index last q = true →
     ∃ w', poll E Emulator cb last w = (Next {[q := true]}, w')
           ∧ clock w + 250 <= clock w').
Proof.
  intros Hw Hq Hne.
  destruct (ask_Emulator E w) as (Hask & Hep & _).
  rewrite Hw, (emulated_ports_not_empty q Hne) in Hask. rewrite Hw, Hq in Hep.
  split; intros Hi.
  - rewrite poll_unfold. cbv zeta. rewrite Hask. cbn [fst snd].
    rewrite has_new_singleton, Hi. cbn [negb].
    set (w3 := Sleep E 1000 _).
    assert (emulatedPort w3 = q) as Hw3.
    { subst w3. by rewrite emulatedPort_Sleep, !emulatedPort_fire,
        emulatedPort_called. }
    destruct (ask_Emulator E w3) as (Hask3 & _).
    rewrite Hw3, (emulated_ports_not_empty q Hne) in Hask3.
    rewrite Hask3. cbn [fst snd]. rewrite first_new_singleton, Hi.
    by eexists.
  - pose proof (poll_Next_clock E Emulator cb last w) as Hclock.
    rewrite poll_unfold in *. cbv zeta in *. rewrite Hask in *.
    cbn [fst snd] in *. rewrite has_new_singleton, Hi in *. cbn [negb] in *.
    eexists. split; [done|]. by eapply Hclock.
Qed.

End DryRunFacts.

(** ** The sample run with a glitch *)

Lemma glitch_iterates :
  ∃ w0 w1,
    before_loop quiet_env (Caller glitch) None "" true false start
      = (Next (ports ["A"]), w0)
    ∧ iterates quiet_env (Caller glitch) None (deadline_of false w0)
        (ports ["A"]) w0 (ports ["A"; "B"]) w1
    ∧ trace w1 = [EvPortsMapper SiteLast (ports ["A"]) None;
                  EvPortsMapper SiteNow (ports ["A"; "B"]) None;
                  EvSleep 1000;
                  EvPortsMapper SiteCheck (ports ["A"]) None;
                  EvSleep 250].
Proof.
  eexists _, _. split; [vm_compute; reflexivity|]. split.
  - eapply iterates_step; [by vm_compute|vm_compute; reflexivity|].
    apply iterates_refl.
  - vm_compute. reflexivity.
Defined.

(** * The claims *)

(** ** C1: the port that is returned *)

(** C1, on the input on which the code fails it: port "B" is new in the
    snapshot [now], it is gone in the snapshot [check] where port "C" shows
    up for the first time, and [Reset] returns "C", a port that was seen in
    one snapshot only. *)
Theorem Reset_returns_port_seen_once :
  ∃ w',
    Reset quiet_env 41 "" true false (Some renumbered) None start
      = Some (("C", None), w')
    ∧ trace w' = [EvPortsMapper SiteLast (ports ["A"]) None;
                  EvPortsMapper SiteNow (ports ["A"; "B"]) None;
                  EvSleep 1000;
                  EvPortsMapper SiteCheck (ports ["A"; "C"]) None]
    ∧ ports ["A"; "B"] !! "C" = None.
Proof.
  eexists. split; [vm_compute; reflexivity|]. split; [done|]. by vm_compute.
Qed.

(** ** C2: enumeration failures *)

(** C2. [Reset] returns, given fuel for the 40 iterations that fit before
    the deadline. Whenever a call of the ports mapper made by [Reset] (the
    first one, the one of an iteration or the one of a stabilisation check)
    answers an error [e], [Reset] returns [("", e)], and nothing follows that
    call in the trace, but the "LAST" debug message when it is the first
    call. *)
Theorem Reset_enumeration_error E fuel portToTouch wait dryRun portsMapper cb w :
  ((41 <= fuel)%nat →
   is_Some (Reset E fuel portToTouch wait dryRun portsMapper cb w))
  ∧ ∀ port err w' pre site res e post,
      Reset E fuel portToTouch wait dryRun portsMapper cb w
        = Some ((port, err), w') →
      trace w' = trace w ++ pre ++ EvPortsMapper site res (Some e) :: post →
      port = "" ∧ err = Some e ∧ post = after_failure cb site res.
Proof.
  split; [apply Reset_total|].
  intros port err w' pre site res e post HR Htrace.
  apply Reset_enum_shape in HR as (evs & Ht & Hshape).
  rewrite Ht in Htrace. apply app_inv_head in Htrace.
  destruct Hshape as [Hclean|(clean & site0 & res0 & e0 & -> & Hclean & -> & ->)].
  - exfalso. by eapply (Forall_false_not_in enum_failed).
  - apply unique_split with (f := enum_failed) in Htrace
      as (_ & [= -> -> ->] & ->); try done.
    destruct site0; cbn; solve_Forall.
Qed.

Lemma Reset_enumeration_error_witness :
  "" = "" ∧ Some boom = Some boom ∧ [] = after_failure observers SiteCheck ∅.
Proof.
  eapply (proj2 (Reset_enumeration_error quiet_env 41 "" true false
                   (Some (answers [(ports ["A"], None);
                                   (ports ["A"; "B"], None);
                                   (∅, Some boom)]))
                   observers start)
            "" (Some boom) _
            [EvPortsMapper SiteLast (ports ["A"]) None;
             EvDebug (SprintfMap "LAST: %v" (ports ["A"]));
             EvWaitingForNewSerial;
             EvPortsMapper SiteNow (ports ["A"; "B"]) None;
             EvDebug (SprintfMap "WAIT: %v" (ports ["A"; "B"]));
             EvDebug (Literal "New ports found!");
             EvSleep 1000]
            SiteCheck ∅ boom []).
  - vm_compute. reflexivity.
  - vm_compute. reflexivity.
Defined.

(** ** C3: the baseline of the diff *)

(** C3, as the code has it. At the head of every iteration of the loop,
    [last] is the result of the most recent successful enumeration that was
    not a stabilisation check: the first snapshot, then the snapshot [now] of
    the previous iteration, also when a check snapshot was taken after it. *)
Theorem Reset_baseline E portToTouch wait dryRun portsMapper cb w
    last0 w0 last w1 :
  let s := select_mapper portToTouch dryRun portsMapper w in
  before_loop E s.1 cb portToTouch wait dryRun s.2 = (Next last0, w0) →
  iterates E s.1 cb (deadline_of dryRun w0) last0 w0 last w1 →
  latest_but_checks (trace w1) = Some last.
Proof.
  intros s Hbl Hit.
  apply (iterates_ind_inv E s.1 cb (deadline_of dryRun w0)
           (λ last w, latest_but_checks (trace w) = Some last)
           last0 w0 last w1); [|done|].
  - intros last2 w2 now w3 _ Hpoll _. by eapply poll_Next_baseline.
  - by eapply before_loop_baseline.
Qed.

Lemma Reset_baseline_witness :
  ∃ w0 w1,
    before_loop quiet_env (Caller glitch) None "" true false start
      = (Next (ports ["A"]), w0)
    ∧ iterates quiet_env (Caller glitch) None (deadline_of false w0)
        (ports ["A"]) w0 (ports ["A"; "B"]) w1
    ∧ latest_but_checks (trace w1) = Some (ports ["A"; "B"]).
Proof.
  destruct glitch_iterates as (w0 & w1 & Hbl & Hit & _).
  exists w0, w1. split; [exact Hbl|]. split; [exact Hit|].
  exact (Reset_baseline quiet_env "" true false (Some glitch) None start
           (ports ["A"]) w0 (ports ["A"; "B"]) w1 Hbl Hit).
Defined.

(** C3, as stated, fails: after a stabilisation check that found nothing,
    the next iteration diffs against the snapshot [now] taken before the
    check, which is not the result of the most recent enumeration. *)
Lemma Reset_baseline_is_not_latest :
  ∃ w0 last w1,
    before_loop quiet_env (Caller glitch) None "" true false start
      = (Next (ports ["A"]), w0)
    ∧ iterates quiet_env (Caller glitch) None (deadline_of false w0)
        (ports ["A"]) w0 last w1
    ∧ latest (trace w1) = Some (ports ["A"])
    ∧ last = ports ["A"; "B"]
    ∧ latest (trace w1) ≠ Some last.
Proof.
  destruct glitch_iterates as (w0 & w1 & Hbl & Hit & Ht).
  exists w0, (ports ["A"; "B"]), w1.
  split; [done|]. split; [done|]. rewrite Ht.
  split; [by vm_compute|]. split; [done|]. by vm_compute.
Qed.

(** ** C4: dry runs *)

(** C4. A dry run of [Reset] with [wait] set returns, given fuel for two
    tests of the deadline: [(target+"0", nil)] when the target ends in "999";
    [("newport", nil)] when the target is empty; and for any other target
    [("", nil)], once the deadline of 100 ms has passed. *)
Theorem Reset_dry_run E fuel target portsMapper cb w :
  (2 <= fuel)%nat →
  (HasSuffix target "999" = true →
   ∃ w', Reset E fuel target true true portsMapper cb w
         = Some ((target +:+ "0", None), w'))
  ∧ (target = "" →
     ∃ w', Reset E fuel target true true portsMapper cb w
           = Some (("newport", None), w'))
  ∧ (target ≠ "" → HasSuffix target "999" = false →
     ∃ w', Reset E fuel target true true portsMapper cb w
           = Some (("", None), w')
           ∧ clock w + 100 <= clock w').
Proof.
  intros Hfuel. destruct fuel as [|[|fuel]]; [lia|lia|clear Hfuel].
  unfold Reset. cbv zeta. unfold select_mapper. cbn [fst snd].
  set (w0 := {| clock := clock w; ticks := ticks w; calls := calls w;
                emulatedPort := target; trace := trace w |}).
  destruct (before_loop_dry E cb target w0 eq_refl) as (w1 & -> & Hw1 & Hc1).
  unfold deadline_of. cbn [wait_loop].
  destruct (Z.ltb_spec (clock w1) (clock w1 + 100)) as [_|]; [|lia].
  pose proof (next_emulated_not_empty target) as Hne.
  pose proof (next_emulated_idem target) as Hidem.
  destruct (poll_dry E cb (emulated_ports target) w1 (next_emulated target)
              Hw1 Hidem Hne) as [Hfound Hquiet].
  split; [|split].
  - intros H999. destruct Hfound as [w' Hpoll].
    + unfold next_emulated. rewrite H999. unfold emulated_ports.
      destruct (String.eqb_spec target "") as [->|_]; [done|].
      unfold index. rewrite lookup_singleton_ne; [done|apply app_0_neq].
    + rewrite Hpoll. unfold next_emulated. rewrite H999. by eexists.
  - intros ->. destruct Hfound as [w' Hpoll]; [done|].
    rewrite Hpoll. by eexists.
  - intros Htarget H999.
    assert (next_emulated target = target) as Hnext.
    { unfold next_emulated. rewrite H999.
      by destruct (String.eqb_spec target ""). }
    rewrite Hnext in *. destruct Hquiet as (w' & Hpoll & Hc').
    + rewrite (emulated_ports_not_empty target Htarget).
      unfold index. by rewrite lookup_singleton_eq.
    + rewrite Hpoll.
      destruct (Z.ltb_spec (clock w') (clock w1 + 100)) as [|_]; [lia|].
      eexists. split; [done|].
      pose proof (clock_fire E cb BootloaderPortFound
                    (EvBootloaderPortFound "") w').
      subst w0. cbn in Hc1. lia.
Qed.

Lemma Reset_dry_run_witness :
  (∃ w', Reset quiet_env 2 "/dev/ttyACM999" true true None observers start
         = Some (("/dev/ttyACM9990", None), w'))
  ∧ (∃ w', Reset quiet_env 2 "" true true None observers start
           = Some (("newport", None), w'))
  ∧ (∃ w', Reset quiet_env 2 "/dev/ttyACM0" true true None observers start
           = Some (("", None), w')
           ∧ clock start + 100 <= clock w').
Proof.
  split; [|split].
  - apply (Reset_dry_run quiet_env 2 "/dev/ttyACM999" None observers start);
      [lia|by vm_compute].
  - apply (Reset_dry_run quiet_env 2 "" None observers start); [lia|done].
  - apply (Reset_dry_run quiet_env 2 "/dev/ttyACM0" None observers start);
      [lia|done|by vm_compute].
Defined.

(** ** C5: a touch that fails *)

(** C5, as the code has it. [Reset] returns, given fuel for the 40
    iterations that fit before the deadline. When a step of the touch fails
    in a run of [Reset], so that [Touch1200bps] returns the error [e]:
    without [wait], [Reset] returns [("", e)] wrapped as "1200-bps touch",
    right after the touch has closed the port; with [wait], nothing is done
    about the error, no callback is called for it, and the run goes on with
    the [WaitingForNewSerial] callback and the first enumeration of the
    loop. *)
Theorem Reset_touch_failure E fuel portToTouch wait dryRun portsMapper cb w :
  ((41 <= fuel)%nat →
   is_Some (Reset E fuel portToTouch wait dryRun portsMapper cb w))
  ∧ ∀ port err w' pre ev post e,
      Reset E fuel portToTouch wait dryRun portsMapper cb w
        = Some ((port, err), w') →
      trace w' = trace w ++ pre ++ ev :: post →
      touch_error ev = Some e →
      if wait then
        ∃ cl now err0 rest,
          closing ev cl
          ∧ post = cl ++ fired cb WaitingForNewSerial EvWaitingForNewSerial
                      ++ EvPortsMapper SiteNow now err0 :: rest
      else
        port = "" ∧ err = Some (ErrWrap "1200-bps touch" e) ∧ closing ev post.
Proof.
  split; [apply Reset_total|].
  intros port err w' pre ev post e HR Htrace Hev.
  pose proof (touch_error_serial_failed ev e Hev) as Hfailed.
  apply Reset_cases in HR. cbv zeta in HR.
  set (s := select_mapper portToTouch dryRun portsMapper w) in *.
  destruct (before_loop_ok E s.1 cb portToTouch wait dryRun s.2)
    as (hev & Hspec & Ht & _).
  assert (trace s.2 = trace w) as Hs by apply trace_select_mapper.
  rewrite Hs in Ht.
  destruct HR as [Hbl|(last & w1 & last' & w2 & Hbl & Hit & Hend)];
    rewrite Hbl in Hspec, Ht; cbn [fst snd] in *.
  - rewrite Ht in Htrace. apply app_inv_head in Htrace. revert Htrace.
    inversion Hspec as [last e0 w0 Hask|last w1 p0 e0 w0 tbev Hask Hp Hi Htb
                       |last w1 w0 tbev Hask Hw Htb|]; subst; intros Htrace.
    + exfalso. eapply (Forall_false_not_in serial_failed); [|exact Htrace|done].
      unfold head_events. solve_Forall.
    + apply touch_block_no_failure in Htb
        as [Hclean|(e1 & tev & tpre & x & cl & -> & Htev & Hpre & Hcl & Hx
                    & Hc & Hr)].
      { exfalso. eapply (Forall_false_not_in serial_failed);
          [|exact Htrace|done].
        by eapply head_events_no_failure_any. }
      destruct wait; [done|]. injection Hr as -> ->.
      rewrite head_events_touch in Htrace.
      rewrite <- (app_nil_r tev) in Htrace.
      destruct (split_failure _ _ _ _ _ _ _ _ _ Htrace Htev
                  (head_events_no_failure _ _ _ _) Hpre Hcl
                  (Forall_nil_2 _) Hfailed) as [-> ->].
      rewrite app_nil_r. split; [done|]. split; [congruence|done].
    + exfalso. destruct Htb as [(_ & _ & Htb)|[_ ->]].
      * apply touch_block_no_failure in Htb
          as [Hclean|(e1 & tev & tpre & x & cl & _ & _ & _ & _ & _ & _ & Hr)];
          [|done].
        eapply (Forall_false_not_in serial_failed); [|exact Htrace|done].
        by eapply head_events_no_failure_any.
      * eapply (Forall_false_not_in serial_failed); [|exact Htrace|done].
        unfold head_events. solve_Forall.
  - destruct (loop_events E s.1 cb _ _ _ _ _ port err w' Hit) as
      (now & err0 & rest & Htl & Hrest).
    { destruct Hend as [(Hd & _ & _ & ->)|(Hd & Hpoll)]; [by left|by right]. }
    { unfold deadline_of. destruct dryRun; lia. }
    rewrite Htl, Ht, <- !app_assoc in Htrace. apply app_inv_head in Htrace.
    revert Htrace.
    inversion Hspec as [| | |last0 w0 w3 w4 tbev Hask Hw Htb]; subst;
      intros Htrace.
    rewrite <- app_assoc in Htrace.
    destruct Htb as [(_ & _ & Htb)|[_ ->]].
    + apply touch_block_no_failure in Htb
        as [Hclean|(e1 & tev & tpre & x & cl & -> & Htev & Hpre & Hcl & Hx
                    & Hc & Hr)].
      { exfalso. eapply (Forall_false_not_in serial_failed);
          [|exact Htrace|done].
        apply Forall_app_2; [by eapply head_events_no_failure_any|].
        solve_Forall. }
      rewrite head_events_touch, <- app_assoc in Htrace.
      assert (no_failure
                (fired cb WaitingForNewSerial EvWaitingForNewSerial
                 ++ EvPortsMapper SiteNow now err0 :: rest)) as Hloop
        by solve_Forall.
      destruct (split_failure _ _ _ _ _ _ _ _ _ Htrace Htev
                  (head_events_no_failure _ _ _ _) Hpre Hcl Hloop Hfailed)
        as [-> ->].
      by exists cl, now, err0, rest.
    + exfalso. eapply (Forall_false_not_in serial_failed);
        [|exact Htrace|done].
      unfold head_events. solve_Forall.
Qed.

Lemma Reset_touch_failure_witness :
  ∃ cl now err0 rest,
    closing (EvOpen "A" 1200 (Some (ErrMsg "Serial port busy"))) cl
    ∧ [EvWaitingForNewSerial; EvPortsMapper SiteNow ∅ (Some boom)]
      = cl ++ fired observers WaitingForNewSerial EvWaitingForNewSerial
           ++ EvPortsMapper SiteNow now err0 :: rest.
Proof.
  eapply (proj2 (Reset_touch_failure busy_env 41 "A" true false
                   (Some (answers [(ports ["A"], None); (∅, Some boom)]))
                   observers start)
            "" (Some boom) _
            [EvPortsMapper SiteLast (ports ["A"]) None;
             EvDebug (SprintfMap "LAST: %v" (ports ["A"]));
             EvDebug (SprintfStr "TOUCH: %v" "A");
             EvTouchingPort "A"]
            (EvOpen "A" 1200 (Some (ErrMsg "Serial port busy")))
            [EvWaitingForNewSerial; EvPortsMapper SiteNow ∅ (Some boom)]
            (ErrWrap "opening port at 1200bps" (ErrMsg "Serial port busy"))).
  - vm_compute. reflexivity.
  - vm_compute. reflexivity.
  - reflexivity.
Defined.

(** C5, as stated, fails: with [wait] and the [Debug] callback set, the
    failed touch is followed at once by the [WaitingForNewSerial] callback
    and the loop; the [Debug] callback is called for the enumerations only,
    never for the error of the touch. *)
Lemma Reset_touch_failure_not_logged :
  ∃ w',
    Reset busy_env 41 "A" true false
      (Some (answers [(ports ["A"], None); (ports ["A"; "B"], None);
                      (ports ["A"; "B"], None)]))
      observers start = Some (("B", None), w')
    ∧ trace w' = [EvPortsMapper SiteLast (ports ["A"]) None;
                  EvDebug (SprintfMap "LAST: %v" (ports ["A"]));
                  EvDebug (SprintfStr "TOUCH: %v" "A");
                  EvTouchingPort "A";
                  EvOpen "A" 1200 (Some (ErrMsg "Serial port busy"));
                  EvWaitingForNewSerial;
                  EvPortsMapper SiteNow (ports ["A"; "B"]) None;
                  EvDebug (SprintfMap "WAIT: %v" (ports ["A"; "B"]));
                  EvDebug (Literal "New ports found!");
                  EvSleep 1000;
                  EvPortsMapper SiteCheck (ports ["A"; "B"]) None;
                  EvDebug (SprintfMap "CHECK: %v" (ports ["A"; "B"]));
                  EvBootloaderPortFound "B"].
Proof. eexists. split; [vm_compute; reflexivity|done]. Qed.

(** ** C6: failure of the first enumeration *)

(** An enumeration of the loop that fails is followed by nothing: the error
    is tested before [Debug] is called. *)
Lemma poll_enumeration_error_first E pm cb last w now e :
  (ask E pm w).1 = (now, Some e) →
  ∃ w', poll E pm cb last w = (Return "" (Some e), w')
        ∧ trace w' = trace w ++ [EvPortsMapper SiteNow now (Some e)].
Proof.
  intros Hask. rewrite poll_unfold. cbv zeta. rewrite Hask. cbn [fst snd].
  eexists. split; [done|]. autorewrite with trace. by rewrite Hask.
Qed.

(** C6, what the code does. When the very first enumeration fails with [e],
    [Reset] returns [("", e)] whatever the fuel, but not before it has
    called [Debug], when set, with the "LAST" message: at this enumeration,
    and at this one only, [Debug] is called before the error is tested. *)
Theorem Reset_first_enumeration_error E fuel portToTouch wait dryRun
    portsMapper cb w res e :
  let s := select_mapper portToTouch dryRun portsMapper w in
  (ask E s.1 s.2).1 = (res, Some e) →
  ∃ w',
    Reset E fuel portToTouch wait dryRun portsMapper cb w
      = Some (("", Some e), w')
    ∧ trace w' = trace w ++ EvPortsMapper SiteLast res (Some e)
                   :: fired cb Debug (EvDebug (SprintfMap "LAST: %v" res)).
Proof.
  intros s Hask. unfold Reset. cbv zeta. fold s.
  rewrite before_loop_unfold. cbv zeta. rewrite Hask. cbn [fst snd].
  eexists. split; [done|].
  autorewrite with trace. rewrite Hask. cbn [fst snd].
  unfold s. by rewrite trace_select_mapper, <- app_assoc.
Qed.

Lemma Reset_first_enumeration_error_witness :
  ∃ w',
    Reset quiet_env 0 "A" true false (Some (answers [(∅, Some boom)]))
      observers start = Some (("", Some boom), w')
    ∧ trace w' = trace start ++ EvPortsMapper SiteLast ∅ (Some boom)
                   :: fired observers Debug (EvDebug (SprintfMap "LAST: %v" ∅)).
Proof.
  apply (Reset_first_enumeration_error quiet_env 0 "A" true false
           (Some (answers [(∅, Some boom)])) observers start ∅ boom).
  vm_compute. reflexivity.
Defined.

(** C6, on an input on which the code fails it: with the [Debug] callback
    set, [Debug] is called although the first enumeration failed. *)
Lemma Reset_first_enumeration_error_calls_Debug :
  ∃ w',
    Reset quiet_env 41 "A" true false (Some (answers [(∅, Some boom)]))
      observers start = Some (("", Some boom), w')
    ∧ trace w' = [EvPortsMapper SiteLast ∅ (Some boom);
                  EvDebug (SprintfMap "LAST: %v" ∅)]
    ∧ ¬ Forall (λ ev, is_callback ev = false) (trace w').
Proof.
  eexists. split; [vm_compute; reflexivity|]. split; [done|].
  intros H. cbn in H. apply Forall_cons in H as [_ H].
  apply Forall_cons in H as [H _]. discriminate H.
Qed.

(** ** C7: the dry-run emulator *)

(** C7, as the code has it. In dry-run mode the emulator never fails. Its
    first invocation reports the target alone, or no port when the target is
    empty. Every later invocation reports one port alone: [target+"0"] when
    the target ends in "999" (the target itself is then no longer reported),
    "newport" when the target is empty, and the target otherwise. *)
Theorem emulator_answers E target portsMapper w n :
  let s := select_mapper target true portsMapper w in
  s.1 = Emulator
  ∧ answer_after E s.1 n s.2
    = (match n with
       | O => if String.eqb target "" then ∅ else {[target := true]}
       | S _ =>
         if HasSuffix target "999" then {[target +:+ "0" := true]}
         else if String.eqb target "" then {["newport" := true]}
         else {[target := true]}
       end, None).
Proof.
  cbn. split; [done|]. unfold answer_after.
  destruct (ask_Emulator E (Nat.iter n (λ w, (ask E Emulator w).2)
    {| clock := clock w; ticks := ticks w; calls := calls w;
       emulatedPort := target; trace := trace w |})) as (-> & _).
  rewrite emulatedPort_iter. cbn [emulatedPort]. f_equal.
  destruct n as [|n]; [done|].
  rewrite next_emulated_iter. unfold emulated_ports.
  pose proof (next_emulated_not_empty target) as Hne.
  destruct (String.eqb_spec (next_emulated target) "") as [|_]; [done|].
  unfold next_emulated. destruct (HasSuffix target "999"); [done|].
  by destruct (String.eqb target "").
Qed.

(** C7, as stated, fails: a target that ends in "999" is reported by the
    first invocation of the emulator only. *)
Lemma emulator_drops_target :
  "tty999" ≠ ""
  ∧ answer_after quiet_env Emulator 1 (select_mapper "tty999" true None start).2
    = ({["tty9990" := true]}, None)
  ∧ index (answer_after quiet_env Emulator 1
             (select_mapper "tty999" true None start).2).1 "tty999" = false.
Proof. split; [done|]. split; by vm_compute. Qed.

(** ** C8: timeout *)

(** C8. In a run with [wait] set in which the iterations of the loop all
    fall through (no enumeration fails and no stabilisation check finds a
    port) until the deadline has passed, [Reset] calls [BootloaderPortFound]
    with the empty string, when that callback is set, and returns
    [("", nil)]. *)
Theorem Reset_timeout E fuel portToTouch dryRun portsMapper cb w
    last1 w1 last2 w2 :
  let s := select_mapper portToTouch dryRun portsMapper w in
  (41 <= fuel)%nat →
  before_loop E s.1 cb portToTouch true dryRun s.2 = (Next last1, w1) →
  iterates E s.1 cb (deadline_of dryRun w1) last1 w1 last2 w2 →
  deadline_of dryRun w1 <= clock w2 →
  ∃ w',
    Reset E fuel portToTouch true dryRun portsMapper cb w
      = Some (("", None), w')
    ∧ trace w' = trace w2
                 ++ fired cb BootloaderPortFound (EvBootloaderPortFound "")
    ∧ (∀ c, cb = Some c → BootloaderPortFound c = true →
            last (trace w') = Some (EvBootloaderPortFound "")).
Proof.
  intros s Hfuel Hbl Hit Hend.
  exists (fire E cb BootloaderPortFound (EvBootloaderPortFound "") w2).
  split; [|split].
  - unfold Reset. cbv zeta. fold s. rewrite Hbl.
    rewrite (iterates_wait_loop_41 E s.1 cb _ fuel last1 w1 last2 w2); try done.
    unfold deadline_of. destruct dryRun; lia.
  - by autorewrite with trace.
  - intros c -> Hc. autorewrite with trace. cbn. rewrite Hc.
    by rewrite last_snoc.
Qed.

Lemma Reset_timeout_witness :
  ∃ w',
    Reset quiet_env 41 "A" true true None observers start
      = Some (("", None), w')
    ∧ last (trace w') = Some (EvBootloaderPortFound "").
Proof.
  assert (∃ w1 w2,
    before_loop quiet_env Emulator observers "A" true true
      (select_mapper "A" true None start).2 = (Next (ports ["A"]), w1)
    ∧ iterates quiet_env Emulator observers (deadline_of true w1)
        (ports ["A"]) w1 (ports ["A"]) w2
    ∧ deadline_of true w1 <= clock w2) as (w1 & w2 & Hbl & Hit & Hend).
  { eexists _, _. split; [vm_compute; reflexivity|]. split.
    - eapply iterates_step; [by vm_compute|vm_compute; reflexivity|].
      apply iterates_refl.
    - by vm_compute. }
  destruct (Reset_timeout quiet_env 41 "A" true None observers start
              (ports ["A"]) w1 (ports ["A"]) w2 ltac:(lia) Hbl Hit Hend)
    as (w' & HR & Ht & Hlast).
  exists w'. split; [exact HR|by eapply Hlast].
Defined.

(** ** C9: [Touch1200bps] *)

(** C9. [Touch1200bps] closes the port it opened on every path. When
    [Open] fails it returns the error "opening port at 1200bps" and does no
    other serial operation. When [Open] succeeds, [Close] is its last serial
    operation: right after the failed [SetDTR(false)], the error being
    "setting DTR to OFF", or else before the sleep of 500 ms, the result
    being [nil]. *)
Theorem Touch1200bps_closes_port E port w :
  let r := Touch1200bps E port w in
  let windows := String.eqb (GOOS E) "windows" in
  (∀ e, serial_Open E (ticks w) port 1200 = Some e →
        r.1 = Some (ErrWrap "opening port at 1200bps" e)
        ∧ trace r.2 = trace w ++ [EvOpen port 1200 (Some e)])
  ∧ (∀ e, serial_Open E (ticks w) port 1200 = None →
          windows = false →
          serial_SetDTR E (S (ticks w)) false = Some e →
          r.1 = Some (ErrWrap "setting DTR to OFF" e)
          ∧ trace r.2 = trace w ++ [EvOpen port 1200 None;
                                    EvSetDTR false (Some e);
                                    EvClose (serial_Close E (S (S (ticks w))))])
  ∧ (serial_Open E (ticks w) port 1200 = None →
     windows = false →
     serial_SetDTR E (S (ticks w)) false = None →
     r.1 = None
     ∧ trace r.2 = trace w ++ [EvOpen port 1200 None;
                               EvSetDTR false None;
                               EvClose (serial_Close E (S (S (ticks w))));
                               EvSleep 500])
  ∧ (serial_Open E (ticks w) port 1200 = None →
     windows = true →
     r.1 = None
     ∧ trace r.2 = trace w ++ [EvOpen port 1200 None;
                               EvClose (serial_Close E (S (ticks w)));
                               EvSleep 500]).
Proof.
  cbv zeta. unfold Touch1200bps, Sleep, emit. cbn.
  split; [|split; [|split]].
  - intros e ->. by cbn.
  - intros e -> -> ->. cbn. by rewrite <- !app_assoc.
  - intros -> -> ->. cbn. by rewrite <- !app_assoc.
  - intros -> ->. cbn. by rewrite <- !app_assoc.
Qed.

Lemma Touch1200bps_closes_port_witness :
  (Touch1200bps stuck_dtr_env "A" start).1
  = Some (ErrWrap "setting DTR to OFF" (ErrMsg "Invalid serial port"))
  ∧ trace (Touch1200bps stuck_dtr_env "A" start).2
    = trace start ++ [EvOpen "A" 1200 None;
                      EvSetDTR false (Some (ErrMsg "Invalid serial port"));
                      EvClose None].
Proof.
  apply (Touch1200bps_closes_port stuck_dtr_env "A" start);
    vm_compute; reflexivity.
Defined.

(** ** C10: port or error *)

(** C10. [Reset] returns, given fuel for the 40 iterations that fit before
    the deadline, and it never returns a port name together with an error:
    when the error is not [nil] the port is empty, and when the port is not
    empty the error is [nil]. *)
Theorem Reset_port_xor_error E fuel portToTouch wait dryRun portsMapper cb w :
  ((41 <= fuel)%nat →
   is_Some (Reset E fuel portToTouch wait dryRun portsMapper cb w))
  ∧ ∀ port err w',
      Reset E fuel portToTouch wait dryRun portsMapper cb w
        = Some ((port, err), w') →
      (err ≠ None → port = "") ∧ (port ≠ "" → err = None).
Proof.
  split; [apply Reset_total|].
  intros port err w' HR. apply Reset_cases in HR. cbv zeta in HR.
  set (s := select_mapper portToTouch dryRun portsMapper w) in *.
  assert (port = "" ∨ err = None) as Hor; [|destruct Hor; by split].
  destruct HR as [Hbl|(last & w1 & last' & w2 & Hbl & Hit & Hend)].
  - destruct (before_loop_ok E s.1 cb portToTouch wait dryRun s.2)
      as (hev & Hspec & _).
    rewrite Hbl in Hspec. cbn [fst snd] in Hspec.
    inversion Hspec as [|? ? ? ? ? ? ? ? ? Htb| |]; subst; auto.
    inversion Htb; subst; auto.
  - destruct Hend as [(_ & -> & -> & _)|(_ & Hpoll)]; [auto|].
    destruct (poll_ok E s.1 cb last' w2) as (fev & Hfin & _).
    rewrite Hpoll in Hfin. cbn [fst snd] in Hfin.
    inversion Hfin; subst; auto.
Qed.

Lemma Reset_port_xor_error_witness :
  (Some boom ≠ None → "" = "") ∧ ("" ≠ "" → Some boom = None).
Proof.
  eapply (proj2 (Reset_port_xor_error quiet_env 41 "" true false
                   (Some (answers [(ports ["A"], None); (∅, Some boom)]))
                   observers start) "" (Some boom) _).
  vm_compute. reflexivity.
Defined.


(** * Further properties *)

(** ** [DefaultPortMapper] *)

Lemma lookup_foldl_insert_true (l : list string) (acc : portmap) (p : string) :
  foldl (λ res port, <[port := true]> res) acc l !! p
  = if decide (p ∈ l) then Some true else acc !! p.
Proof.
  revert acc. induction l as [|q l IH]; intros acc; cbn.
  - by rewrite decide_False by apply not_elem_of_nil.
  - rewrite IH. destruct (decide (p ∈ l)) as [Hin|Hnin].
    + by rewrite decide_True by (by right).
    + destruct (decide (p = q)) as [->|Hne].
      * rewrite lookup_insert_eq. by rewrite decide_True by left.
      * rewrite lookup_insert_ne by done.
        rewrite decide_False; [done|].
        rewrite elem_of_cons. tauto.
Qed.

(** X1. When [serial.GetPortsList] succeeds, [DefaultPortMapper] answers no
    error and a map that holds exactly the listed ports, each bound to
    [true], however often a port is listed. When it fails with [e], the
    answer is the empty map and [e] wrapped as "listing serial ports". *)
Theorem DefaultPortMapper_lists E n l :
  (serial_GetPortsList E n = (l, None) →
   (DefaultPortMapper E n).2 = None
   ∧ ∀ p, (DefaultPortMapper E n).1 !! p
          = if decide (p ∈ l) then Some true else None)
  ∧ (∀ e, serial_GetPortsList E n = (l, Some e) →
          DefaultPortMapper E n
          = (∅, Some (ErrWrap "listing serial ports" e))).
Proof.
  unfold DefaultPortMapper. split.
  - intros ->. cbn. split; [done|]. intros p.
    by rewrite lookup_foldl_insert_true, lookup_empty.
  - by intros e ->.
Qed.

Lemma DefaultPortMapper_lists_witness :
  (DefaultPortMapper two_ports_env 0).2 = None
  ∧ ∀ p, (DefaultPortMapper two_ports_env 0).1 !! p
         = if decide (p ∈ ["/dev/ttyACM0"; "/dev/ttyUSB0"; "/dev/ttyACM0"])
           then Some true else None.
Proof.
  apply (DefaultPortMapper_lists two_ports_env 0
           ["/dev/ttyACM0"; "/dev/ttyUSB0"; "/dev/ttyACM0"]).
  reflexivity.
Defined.

(** X2. Without a ports mapper of the caller and outside a dry run, [Reset]
    lists the ports with [serial.GetPortsList]: when that fails with [e] at
    the first call, [Reset] returns [("", e)] wrapped as "listing serial
    ports", whatever the fuel, and does nothing to the serial port. *)
Theorem Reset_default_mapper_error E fuel portToTouch wait cb w l e :
  serial_GetPortsList E (ticks w) = (l, Some e) →
  ∃ w',
    Reset E fuel portToTouch wait false None cb w
      = Some (("", Some (ErrWrap "listing serial ports" e)), w')
    ∧ trace w'
      = trace w ++ EvPortsMapper SiteLast ∅
                     (Some (ErrWrap "listing serial ports" e))
                   :: fired cb Debug (EvDebug (SprintfMap "LAST: %v" ∅)).
Proof.
  intros Hlist. unfold Reset, select_mapper. cbv zeta. cbn [fst snd].
  rewrite before_loop_unfold. cbv zeta.
  assert (ask E TheDefault w
          = ((∅, Some (ErrWrap "listing serial ports" e)), w)) as Hask.
  { unfold ask, DefaultPortMapper. by rewrite Hlist. }
  rewrite Hask. cbn [fst snd]. eexists. split; [done|].
  autorewrite with trace. rewrite Hask. cbn [fst snd].
  by rewrite <- app_assoc.
Qed.

Lemma Reset_default_mapper_error_witness :
  ∃ w',
    Reset no_list_env 0 "A" true false None observers start
      = Some (("", Some (ErrWrap "listing serial ports"
                           (ErrMsg "enumeration failed"))), w')
    ∧ trace w'
      = trace start ++ EvPortsMapper SiteLast ∅
                         (Some (ErrWrap "listing serial ports"
                                  (ErrMsg "enumeration failed")))
                       :: fired observers Debug
                            (EvDebug (SprintfMap "LAST: %v" ∅)).
Proof.
  apply (Reset_default_mapper_error no_list_env 0 "A" true observers start []
           (ErrMsg "enumeration failed")).
  reflexivity.
Defined.

(** ** The events of the touch block and of an iteration, in general *)

Section MoreEventFacts.
Variable E : Env.

(** A property of the events a touch can add holds of the events of the
    touch block. *)
Lemma touch_block_events_Forall (P : Event → Prop) cb port wait dryRun w r w'
    tbev :
  (∀ msg, P (EvDebug msg)) →
  P (EvTouchingPort port) →
  (dryRun = false → ∀ e, P (EvOpen port 1200 e)) →
  (dryRun = false → ∀ e, P (EvSetDTR false e)) →
  (dryRun = false → ∀ e, P (EvClose e)) →
  (dryRun = false → P (EvSleep 500)) →
  touch_block_spec E cb port wait dryRun w r w' tbev →
  Forall P tbev.
Proof.
  intros Hdbg Htp Hopen Hdtr Hclose Hsleep H.
  inversion H as [w0 Hd|w1 w0 tev Hd Hts|e w1 w0 tev Hd Hw Hts
                 |e w1 w0 tev Hd Hw Hts]; subst;
    unfold touch_block_events; solve_Forall;
    inversion Hts; subst; solve_Forall; auto.
Qed.

(** A property of the events an iteration can add holds of its events. *)
Lemma poll_events_Forall (P : Event → Prop) pm cb last w r w' evs :
  (∀ msg, P (EvDebug msg)) →
  (∀ now err, P (EvPortsMapper SiteNow now err)) →
  (∀ check err, P (EvPortsMapper SiteCheck check err)) →
  P (EvSleep 1000) → P (EvSleep 250) →
  (∀ p, r = Return p None → P (EvBootloaderPortFound p)) →
  poll_spec E pm cb last w r w' evs →
  Forall P evs.
Proof.
  intros Hdbg Hnow Hcheck H1000 H250 Hfound H.
  inversion H; subst; solve_Forall; auto.
Qed.

Lemma quiet_Forall (P : Event → Prop) evs :
  (∀ msg, P (EvDebug msg)) →
  (∀ now, P (EvPortsMapper SiteNow now None)) →
  (∀ check, P (EvPortsMapper SiteCheck check None)) →
  (∀ ms, P (EvSleep ms)) →
  Forall (λ ev, quiet ev = true) evs → Forall P evs.
Proof.
  intros Hdbg Hnow Hcheck Hsleep H. eapply Forall_impl; [exact H|].
  intros [| | | |[] ? []| | | |]; cbn; intros Hq; try done; auto.
Qed.

End MoreEventFacts.

(** ** [Reset] without [wait] *)

(** X3. Without [wait], [Reset] returns whatever the fuel, with an empty
    port. It calls the ports mapper once, first of all, and does nothing of
    the waiting phase: neither of its callbacks, no further enumeration, no
    sleep but the 500 ms of the touch. In a dry run the error is [nil] and
    nothing is done to the serial port. *)
Theorem Reset_without_wait E fuel portToTouch dryRun portsMapper cb w :
  ∃ err w' res err0 evs,
    Reset E fuel portToTouch false dryRun portsMapper cb w
      = Some (("", err), w')
    ∧ trace w' = trace w ++ EvPortsMapper SiteLast res err0 :: evs
    ∧ Forall (λ ev, is_enum ev = false ∧ of_waiting ev = false) evs
    ∧ (dryRun = true →
       err = None ∧ Forall (λ ev, is_serial ev = false) evs).
Proof.
  unfold Reset. cbv zeta.
  set (s := select_mapper portToTouch dryRun portsMapper w).
  assert (trace s.2 = trace w) as Hs by apply trace_select_mapper.
  assert (dryRun = true → s.1 = Emulator) as Hemu.
  { intros ->. done. }
  destruct (before_loop_ok E s.1 cb portToTouch false dryRun s.2)
    as (hev & Hspec & Ht & _).
  rewrite Hs in Ht.
  destruct (before_loop E s.1 cb portToTouch false dryRun s.2) as [r w1].
  cbn [fst snd] in *.
  inversion Hspec as [last e w0 Hask|last w2 p e w0 tbev Hask Hp Hi Htb
                     |last w2 w0 tbev Hask Hw Htb|]; subst.
  - exists (Some e), w1, last, (Some e). eexists.
    split; [done|]. split; [exact Ht|]. split; [solve_Forall|].
    intros Hdry. rewrite (Hemu Hdry) in Hask.
    destruct (ask_Emulator E s.2) as (Hask' & _). congruence.
  - assert (p = "") as ->.
    { by inversion Htb. }
    exists e, w1, last, None. eexists.
    split; [done|]. split; [exact Ht|]. split.
    + solve_Forall.
      eapply touch_block_events_Forall; [..|exact Htb]; done.
    + intros Hdry. inversion Htb; congruence.
  - exists None, w1, last, None. eexists.
    split; [done|]. split; [exact Ht|].
    destruct Htb as [(_ & _ & Htb)|[_ ->]].
    + split.
      * solve_Forall.
        eapply touch_block_events_Forall; [..|exact Htb]; done.
      * intros Hdry. split; [done|]. solve_Forall.
        eapply touch_block_events_Forall; [..|exact Htb]; try done;
          congruence.
    + split; [solve_Forall|]. intros _. split; [done|]. solve_Forall.
  - done.
Qed.

(** ** The anatomy of a run *)

Lemma fired_cases cb F ev : fired cb F ev = [] ∨ fired cb F ev = [ev].
Proof. unfold fired. destruct cb as [c|]; [destruct (F c)|]; auto. Qed.

(** An element that [f] selects, in a list whose end has none, is in its
    beginning. *)
Lemma split_in_left {A} (f : A → bool) (l1 l2 pre post : list A) (x : A) :
  l1 ++ l2 = pre ++ x :: post →
  Forall (λ a, f a = false) l2 → f x = true →
  ∃ post', l1 = pre ++ x :: post' ∧ post = post' ++ l2.
Proof.
  revert pre. induction l1 as [|a l1 IH]; intros pre Heq Hl2 Hx.
  - exfalso. cbn in Heq. by eapply (Forall_false_not_in f).
  - destruct pre as [|b pre]; cbn in Heq.
    + injection Heq as -> <-. by exists l1.
    + injection Heq as -> Heq. destruct (IH pre Heq Hl2 Hx) as (post' & -> & ->).
      by exists post'.
Qed.

Section Anatomy.
Variable E : Env.

(** A run is what [Reset] does before the loop, then, when that falls
    through, iterations that fall through and an end: the timeout or an
    iteration that returns. *)
Lemma Reset_anatomy fuel port wait dryRun portsMapper cb w p err w' :
  Reset E fuel port wait dryRun portsMapper cb w = Some ((p, err), w') →
  let s := select_mapper port dryRun portsMapper w in
  ∃ r w1 hev lev,
    before_loop E s.1 cb port wait dryRun s.2 = (r, w1)
    ∧ before_loop_spec E s.1 cb port wait dryRun s.2 r w1 hev
    ∧ trace w1 = trace w ++ hev
    ∧ trace w' = trace w1 ++ lev
    ∧ clock w <= clock w1
    ∧ Forall (λ ev, is_serial ev = false) lev
    ∧ (r = Return p err ∧ w' = w1 ∧ lev = []
       ∨ ∃ last last' w2 itev fin,
           r = Next last
           ∧ iterates E s.1 cb (deadline_of dryRun w1) last w1 last' w2
           ∧ trace w2 = trace w1 ++ itev
           ∧ Forall (λ ev, quiet ev = true) itev
           ∧ clock w1 <= clock w2
           ∧ lev = itev ++ fin
           ∧ (deadline_of dryRun w1 <= clock w2 ∧ p = "" ∧ err = None
              ∧ fin = fired cb BootloaderPortFound (EvBootloaderPortFound "")
              ∨ clock w2 < deadline_of dryRun w1
                ∧ poll E s.1 cb last' w2 = (Return p err, w')
                ∧ poll_spec E s.1 cb last' w2 (Return p err) w' fin)).
Proof.
  intros HR s. apply Reset_cases in HR. cbv zeta in HR. fold s in HR.
  destruct (before_loop_ok E s.1 cb port wait dryRun s.2)
    as (hev & Hspec & Ht & Hc & _).
  assert (trace s.2 = trace w) as Hs by apply trace_select_mapper.
  assert (clock s.2 = clock w) as Hcs.
  { unfold s, select_mapper. by destruct dryRun. }
  rewrite Hs in Ht. rewrite Hcs in Hc.
  destruct HR as [Hbl|(last & w1 & last' & w2 & Hbl & Hit & Hend)];
    rewrite Hbl in Hspec, Ht, Hc; cbn [fst snd] in *.
  - exists (Return p err), w', hev, []. rewrite app_nil_r.
    repeat split; try done. by left.
  - destruct (iterates_events E s.1 cb _ _ _ _ _ Hit) as (itev & Hti & Hq & Hci).
    assert (Forall (λ ev, is_serial ev = false) itev) as Hitev
      by (by apply quiet_Forall).
    destruct Hend as [(Hd & -> & -> & ->)|(Hd & Hpoll)].
    + exists (Next last), w1, hev,
        (itev ++ fired cb BootloaderPortFound (EvBootloaderPortFound "")).
      repeat split; try done.
      { autorewrite with trace. by rewrite Hti, <- app_assoc. }
      { solve_Forall. }
      right. exists last, last', w2, itev. eexists.
      repeat split; try done. by left.
    + destruct (poll_ok E s.1 cb last' w2) as (fev & Hfin & Htf & _).
      rewrite Hpoll in Hfin, Htf. cbn [fst snd] in *.
      exists (Next last), w1, hev, (itev ++ fev).
      repeat split; try done.
      { by rewrite Htf, Hti, <- app_assoc. }
      { apply Forall_app_2; [done|].
        eapply poll_events_Forall; [..|exact Hfin]; done. }
      right. exists last, last', w2, itev, fev.
      repeat split; try done. by right.
Qed.

(** Before the loop: the first enumeration, then events that are no
    enumeration, among which those of a touch only outside a dry run and
    for a target that the first snapshot holds. *)
Lemma before_loop_events pm cb port wait dryRun w r w1 hev :
  before_loop_spec E pm cb port wait dryRun w r w1 hev →
  ∃ last err0 tail,
    hev = EvPortsMapper SiteLast last err0 :: tail
    ∧ Forall (λ ev, is_enum ev = false ∧ is_found ev = false) tail
    ∧ (Forall (λ ev, is_serial ev = false) tail
       ∨ dryRun = false ∧ port ≠ "" ∧ index last port = true ∧ err0 = None
         ∧ Forall (λ ev, match ev with
                         | EvOpen p b _ => p = port ∧ b = 1200
                         | EvSetDTR d _ => d = false
                         | _ => True
                         end) tail).
Proof.
  intros Hspec.
  assert (∀ w0 r0 w2 tbev,
            touch_block_spec E cb port wait dryRun w0 r0 w2 tbev →
            Forall (λ ev, is_enum ev = false ∧ is_found ev = false) tbev
            ∧ (dryRun = true → Forall (λ ev, is_serial ev = false) tbev)
            ∧ Forall (λ ev, match ev with
                            | EvOpen p b _ => p = port ∧ b = 1200
                            | EvSetDTR d _ => d = false
                            | _ => True
                            end) tbev) as Htouch.
  { intros w0 r0 w2 tbev Htb. split; [|split].
    - eapply touch_block_events_Forall; [..|exact Htb]; done.
    - intros Hdry.
      eapply touch_block_events_Forall; [..|exact Htb]; try done; congruence.
    - eapply touch_block_events_Forall; [..|exact Htb]; done. }
  inversion Hspec as [last e w0 Hask|last w2 p e w0 tbev Hask Hp Hi Htb
                     |last w2 w0 tbev Hask Hw Htb
                     |last w2 w3 w0 tbev Hask Hw Htb]; subst;
    unfold head_events; eexists _, _, _; (split; [reflexivity|]).
  - split; [solve_Forall|]. left. solve_Forall.
  - destruct (Htouch _ _ _ _ Htb) as (H1 & H2 & H3).
    split; [solve_Forall|]. destruct dryRun.
    + left. solve_Forall. by apply H2.
    + right. repeat split; try done. solve_Forall.
  - destruct Htb as [(Hp & Hi & Htb)|[_ ->]].
    + destruct (Htouch _ _ _ _ Htb) as (H1 & H2 & H3).
      split; [solve_Forall|]. destruct dryRun.
      * left. solve_Forall. by apply H2.
      * right. repeat split; try done. solve_Forall.
    + split; [solve_Forall|]. left. solve_Forall.
  - destruct Htb as [(Hp & Hi & Htb)|[_ ->]].
    + destruct (Htouch _ _ _ _ Htb) as (H1 & H2 & H3).
      split; [solve_Forall|]. destruct dryRun.
      * left. solve_Forall. by apply H2.
      * right. repeat split; try done. solve_Forall.
    + split; [solve_Forall|]. left. solve_Forall.
Qed.

End Anatomy.

(** ** The touch *)

(** X4. Whatever is done to the serial port in a run of [Reset] is done
    outside a dry run, for a target that is not empty and that the first
    snapshot holds, after the first enumeration and before any other one:
    the port that is opened is the target, at 1200 baud, and DTR is only
    ever cleared. *)
Theorem Reset_touch_guard E fuel portToTouch wait dryRun portsMapper cb w
    port err w' pre ev post :
  Reset E fuel portToTouch wait dryRun portsMapper cb w
    = Some ((port, err), w') →
  trace w' = trace w ++ pre ++ ev :: post →
  is_serial ev = true →
  dryRun = false ∧ portToTouch ≠ ""
  ∧ (∃ res pre',
       pre = EvPortsMapper SiteLast res None :: pre'
       ∧ index res portToTouch = true
       ∧ Forall (λ ev, is_enum ev = false) pre')
  ∧ match ev with
    | EvOpen p b _ => p = portToTouch ∧ b = 1200
    | EvSetDTR d _ => d = false
    | _ => True
    end.
Proof.
  intros HR Htrace Hev.
  destruct (Reset_anatomy E _ _ _ _ _ _ _ _ _ _ HR)
    as (r & w1 & hev & lev & Hbl & Hspec & Ht1 & Ht' & _ & Hlev & Hloop).
  rewrite Ht', Ht1, <- app_assoc in Htrace. apply app_inv_head in Htrace.
  apply split_in_left with (f := is_serial) in Htrace
    as (post' & Hhev & _); [|done..].
  apply before_loop_events in Hspec
    as (res & err0 & tail & -> & Henum & Htail).
  destruct pre as [|b pre]; cbn in Hhev.
  { injection Hhev as <- _. done. }
  injection Hhev as <- ->.
  destruct Htail as [Hclean|(-> & Hp & Hi & -> & Hshape)].
  { exfalso.
    eapply (Forall_false_not_in is_serial); [exact Hclean|reflexivity|done]. }
  split; [done|]. split; [done|]. split.
  - exists res, pre. split; [done|]. split; [done|].
    apply Forall_app in Henum as [Henum _].
    eapply Forall_impl; [exact Henum|]. by intros ? [? _].
  - apply Forall_app in Hshape as [_ Hshape].
    by apply Forall_cons in Hshape as [Hshape _].
Qed.

Lemma Reset_touch_guard_witness :
  false = false ∧ "A" ≠ ""
  ∧ (∃ res pre',
       [EvPortsMapper SiteLast (ports ["A"]) None] =
         EvPortsMapper SiteLast res None :: pre'
       ∧ index res "A" = true
       ∧ Forall (λ ev, is_enum ev = false) pre')
  ∧ "A" = "A" ∧ 1200 = 1200.
Proof.
  eapply (Reset_touch_guard quiet_env 0 "A" false false
            (Some (answers [(ports ["A"], None)])) None start "" None _
            [EvPortsMapper SiteLast (ports ["A"]) None]
            (EvOpen "A" 1200 None)
            [EvSetDTR false None; EvClose None; EvSleep 500]).
  - vm_compute. reflexivity.
  - vm_compute. reflexivity.
  - reflexivity.
Defined.

(** ** The callback [BootloaderPortFound] *)

(** X5. [BootloaderPortFound] is called at most once in a run of [Reset],
    with [wait] set, as the very last thing [Reset] does, and with the port
    that [Reset] returns, the error being [nil]. *)
Theorem Reset_found_callback E fuel portToTouch wait dryRun portsMapper cb w
    port err w' pre p post :
  Reset E fuel portToTouch wait dryRun portsMapper cb w
    = Some ((port, err), w') →
  trace w' = trace w ++ pre ++ EvBootloaderPortFound p :: post →
  post = [] ∧ port = p ∧ err = None ∧ wait = true
  ∧ Forall (λ ev, is_found ev = false) pre.
Proof.
  intros HR Htrace.
  destruct (Reset_anatomy E _ _ _ _ _ _ _ _ _ _ HR)
    as (r & w1 & hev & lev & Hbl & Hspec & Ht1 & Ht' & _ & _ & Hloop).
  rewrite Ht', Ht1, <- app_assoc in Htrace. apply app_inv_head in Htrace.
  assert (Forall (λ ev, is_found ev = false) hev) as Hhev.
  { destruct (before_loop_events E _ _ _ _ _ _ _ _ _ Hspec)
      as (res & err0 & tail & -> & Henum & _).
    solve_Forall. eapply Forall_impl; [exact Henum|]. by intros ? [_ ?]. }
  destruct Hloop as [(_ & _ & ->)|(last & last' & w2 & itev & fin & -> & _ & _
                                   & Hq & _ & -> & Hend)].
  { exfalso. rewrite app_nil_r in Htrace.
    by eapply (Forall_false_not_in is_found). }
  assert (wait = true) as ->.
  { by inversion Hspec. }
  assert (Forall (λ ev, is_found ev = false) itev) as Hitev
    by (by apply quiet_Forall).
  assert (∀ fpre q,
            fin = fpre ++ fired cb BootloaderPortFound (EvBootloaderPortFound q)
            → Forall (λ ev, is_found ev = false) fpre
            → port = q → err = None
            → post = [] ∧ port = p ∧ err = None ∧ true = true
              ∧ Forall (λ ev, is_found ev = false) pre) as Hlast.
  { intros fpre q -> Hfpre -> ->.
    destruct (fired_cases cb BootloaderPortFound (EvBootloaderPortFound q))
      as [Hf|Hf]; rewrite Hf in Htrace.
    - exfalso. eapply (Forall_false_not_in is_found); [|exact Htrace|done].
      solve_Forall.
    - rewrite !app_assoc in Htrace.
      apply unique_split with (f := is_found) in Htrace
        as (-> & [= ->] & ->); [|solve_Forall..|done].
      repeat split; try done. solve_Forall. }
  destruct Hend as [(_ & -> & -> & ->)|(_ & _ & Hfin)].
  { by apply (Hlast [] ""). }
  inversion Hfin as [now e w0 Hask| |now check e w0 Hask Hn
                    |now check p0 w0 Hask Hn Hp Hi|]; subst.
  - exfalso. eapply (Forall_false_not_in is_found); [|exact Htrace|done].
    solve_Forall.
  - exfalso. eapply (Forall_false_not_in is_found); [|exact Htrace|done].
    solve_Forall.
  - apply (Hlast
             (EvPortsMapper SiteNow now None
              :: fired cb Debug (EvDebug (SprintfMap "WAIT: %v" now))
              ++ fired cb Debug (EvDebug (Literal "New ports found!"))
              ++ [EvSleep 1000; EvPortsMapper SiteCheck check None]
              ++ fired cb Debug (EvDebug (SprintfMap "CHECK: %v" check)))
             port); [|solve_Forall|done..].
    cbn. by rewrite <- !app_assoc.
Qed.

Lemma Reset_found_callback_witness :
@nil Event = [] ∧ "B" = "B" ∧ @None error = None ∧ true = true
  ∧ Forall (λ ev, is_found ev = false)
      [EvPortsMapper SiteLast (ports ["A"]) None;
       EvPortsMapper SiteNow (ports ["A"; "B"]) None;
       EvSleep 1000;
       EvPortsMapper SiteCheck (ports ["A"; "B"]) None].
Proof.
  eapply (Reset_found_callback quiet_env 41 "" true false (Some settles)
            (Some {| TouchingPort := false; WaitingForNewSerial := false;
                     BootloaderPortFound := true; Debug := false |})
            start "B" None _
            [EvPortsMapper SiteLast (ports ["A"]) None;
             EvPortsMapper SiteNow (ports ["A"; "B"]) None;
             EvSleep 1000;
             EvPortsMapper SiteCheck (ports ["A"; "B"]) None]
            "B" []).
  - vm_compute. reflexivity.
  - vm_compute. reflexivity.
Defined.

(** ** The port that is found *)

Section FoundFacts.
Variable E : Env.
Variable pm : Mapper.
Variable cb : option ResetProgressCallbacks.

(** An iteration that returns a port has slept the second of the
    stabilisation check. *)
Lemma poll_found_clock last w p w' :
  poll E pm cb last w = (Return p None, w') → clock w + 1000 <= clock w'.
Proof.
  rewrite poll_unfold. cbv zeta.
  destruct ((ask E pm w).1.2) as [e|]; [done|].
  destruct (has_new E last _ _); [|done].
  set (w2 := fire E cb Debug _ (called E pm SiteNow w)).
  set (w3 := Sleep E 1000 (fire E cb Debug _ w2)).
  assert (clock w + 1000 <= clock w3) as Hc3.
  { subst w3 w2. etrans; [|apply clock_Sleep].
    pose proof (clock_called E pm SiteNow w).
    pose proof (clock_fire E cb Debug
                  (EvDebug (SprintfMap "WAIT: %v" (ask E pm w).1.1))
                  (called E pm SiteNow w)).
    pose proof (clock_fire E cb Debug (EvDebug (Literal "New ports found!"))
                  (fire E cb Debug
                     (EvDebug (SprintfMap "WAIT: %v" (ask E pm w).1.1))
                     (called E pm SiteNow w))).
    lia. }
  destruct ((ask E pm w3).1.2) as [e|]; [done|].
  set (w5 := fire E cb Debug _ (called E pm SiteCheck w3)).
  destruct (first_new E last _ w5) as [q|]; [|done].
  intros [= <- <-].
  pose proof (clock_called E pm SiteCheck w3).
  pose proof (clock_fire E cb Debug
                (EvDebug (SprintfMap "CHECK: %v" (ask E pm w3).1.1))
                (called E pm SiteCheck w3)).
  pose proof (clock_fire E cb BootloaderPortFound (EvBootloaderPortFound q) w5).
  subst w5. lia.
Qed.

(** At every loop head, [last] is the most recent snapshot but the checks. *)
Lemma iterates_baseline port wait dryRun w last0 w0 deadline last w1 :
  before_loop E pm cb port wait dryRun w = (Next last0, w0) →
  iterates E pm cb deadline last0 w0 last w1 →
  latest_but_checks (trace w1) = Some last.
Proof.
  intros Hbl Hit.
  apply (iterates_ind_inv E pm cb deadline
           (λ last w, latest_but_checks (trace w) = Some last)
           last0 w0 last w1); [|done|].
  - intros last2 w2 now w3 _ Hpoll _. by eapply poll_Next_baseline.
  - by eapply before_loop_baseline.
Qed.

End FoundFacts.

(** X6. When [Reset] returns a port that is not empty, [wait] was set, the
    error is [nil] and at least the second of the stabilisation check has
    passed. The last two enumerations of the run are the snapshot [now] of
    an iteration and its check: some port of [now] is not held by the
    baseline (the most recent snapshot before them that was no check), and
    the returned port is a key of the check snapshot that the baseline does
    not hold. *)
Theorem Reset_found_port E fuel portToTouch wait dryRun portsMapper cb w
    port err w' :
  Reset E fuel portToTouch wait dryRun portsMapper cb w
    = Some ((port, err), w') →
  port ≠ "" →
  wait = true ∧ err = None
  ∧ clock w + 1000 <= clock w'
  ∧ ∃ pre base now mid check post,
      trace w' = trace w ++ pre ++ EvPortsMapper SiteNow now None
                   :: mid ++ EvPortsMapper SiteCheck check None :: post
      ∧ Forall (λ ev, is_enum ev = false) mid
      ∧ Forall (λ ev, is_enum ev = false) post
      ∧ latest_but_checks (trace w ++ pre) = Some base
      ∧ (∃ q, is_Some (now !! q) ∧ index base q = false)
      ∧ is_Some (check !! port)
      ∧ index base port = false.
Proof.
  intros HR Hport.
  destruct (Reset_anatomy E _ _ _ _ _ _ _ _ _ _ HR)
    as (r & w1 & hev & lev & Hbl & Hspec & Ht1 & Ht' & Hc1 & _ & Hloop).
  destruct Hloop as [(-> & _ & _)|(last & last' & w2 & itev & fin & -> & Hit
                                   & Hti & _ & Hc2 & -> & Hend)].
  { exfalso. inversion Hspec as [|? ? ? ? ? ? ? ? ? Htb| |]; subst; try done.
    by inversion Htb. }
  destruct Hend as [(_ & -> & _)|(_ & Hpoll & Hfin)]; [done|].
  assert (wait = true) as -> by (by inversion Hspec).
  pose proof (iterates_baseline E _ cb _ _ _ _ _ _ _ _ _ Hbl Hit) as Hbase.
  inversion Hfin as [| | |now check p0 w0 Hask Hn Hp Hi|]; subst; try done.
  pose proof (poll_found_clock E _ cb _ _ _ _ Hpoll) as Hc'.
  split; [done|]. split; [done|]. split; [lia|].
  exists (hev ++ itev), last', now,
    (fired cb Debug (EvDebug (SprintfMap "WAIT: %v" now))
     ++ fired cb Debug (EvDebug (Literal "New ports found!")) ++ [EvSleep 1000]),
    check,
    (fired cb Debug (EvDebug (SprintfMap "CHECK: %v" check))
     ++ fired cb BootloaderPortFound (EvBootloaderPortFound port)).
  split; [|split; [solve_Forall|split; [solve_Forall|split]]].
  - rewrite Ht', Ht1, <- !app_assoc. cbn. by rewrite <- ?app_assoc.
  - by rewrite app_assoc, <- Ht1, <- Hti.
  - done.
Qed.

Lemma Reset_found_port_witness :
  true = true ∧ @None error = None
  ∧ clock start + 1000 <= 1000
  ∧ ∃ pre base now mid check post,
      [EvPortsMapper SiteLast (ports ["A"]) None;
       EvPortsMapper SiteNow (ports ["A"; "B"]) None;
       EvSleep 1000;
       EvPortsMapper SiteCheck (ports ["A"; "B"]) None]
      = trace start ++ pre ++ EvPortsMapper SiteNow now None
          :: mid ++ EvPortsMapper SiteCheck check None :: post
      ∧ Forall (λ ev, is_enum ev = false) mid
      ∧ Forall (λ ev, is_enum ev = false) post
      ∧ latest_but_checks (trace start ++ pre) = Some base
      ∧ (∃ q, is_Some (now !! q) ∧ index base q = false)
      ∧ is_Some (check !! "B")
      ∧ index base "B" = false.
Proof.
  eapply (Reset_found_port quiet_env 41 "" true false (Some settles) None
            start "B" None
            {| clock := 1000; ticks := 4; calls := 3; emulatedPort := "";
               trace := [EvPortsMapper SiteLast (ports ["A"]) None;
                         EvPortsMapper SiteNow (ports ["A"; "B"]) None;
                         EvSleep 1000;
                         EvPortsMapper SiteCheck (ports ["A"; "B"]) None] |}).
  - vm_compute. reflexivity.
  - done.
Defined.

(** ** The number of enumerations *)

Lemma enumerations_app evs1 evs2 :
  enumerations (evs1 ++ evs2) = (enumerations evs1 + enumerations evs2)%nat.
Proof. unfold enumerations. by rewrite filter_app, length_app. Qed.

Lemma enumerations_cons ev evs :
  enumerations (ev :: evs)
  = ((if is_enum ev then 1 else 0) + enumerations evs)%nat.
Proof.
  unfold enumerations. rewrite filter_cons.
  destruct (is_enum ev) eqn:Hev.
  - by rewrite decide_True.
  - by rewrite decide_False.
Qed.

Lemma enumerations_none evs :
  Forall (λ ev, is_enum ev = false) evs → enumerations evs = 0%nat.
Proof.
  induction 1 as [|ev evs Hev _ IH]; [done|].
  by rewrite enumerations_cons, Hev, IH.
Qed.

Lemma enumerations_fired cb F ev :
  is_enum ev = false → enumerations (fired cb F ev) = 0%nat.
Proof. intros H. apply enumerations_none. by apply Forall_fired. Qed.

Section CountFacts.
Variable E : Env.
Variable pm : Mapper.
Variable cb : option ResetProgressCallbacks.

(** An iteration calls the ports mapper once or twice. *)
Lemma poll_enumerations last w r w' evs :
  poll_spec E pm cb last w r w' evs → (enumerations evs <= 2)%nat.
Proof.
  intros H. inversion H; subst;
    rewrite ?enumerations_cons, ?enumerations_app, ?enumerations_cons,
      ?enumerations_fired by done; cbn; lia.
Qed.

(** [k] iterations that fall through call the ports mapper at most [2 * k]
    times and take at least [250 * k] ms, the last one having started
    before the deadline. *)
Lemma iterates_count deadline last w last' w' :
  iterates E pm cb deadline last w last' w' →
  ∃ (k : nat) evs,
    trace w' = trace w ++ evs
    ∧ (enumerations evs <= 2 * k)%nat
    ∧ clock w + 250 * Z.of_nat k <= clock w'
    ∧ (k ≠ 0%nat → clock w + 250 * (Z.of_nat k - 1) < deadline).
Proof.
  induction 1 as [last w|last w now w1 last' w' Hd Hpoll Hit IH].
  - exists 0%nat, []. rewrite app_nil_r. repeat split; [done|lia|done].
  - destruct IH as (k & evs2 & Ht2 & Hn2 & Hc2 & Hd2).
    destruct (poll_ok E pm cb last w) as (evs1 & Hspec & Ht1 & _).
    pose proof (poll_Next_clock E pm cb _ _ _ _ Hpoll) as Hc1.
    rewrite Hpoll in Hspec, Ht1. cbn [fst snd] in *.
    apply poll_enumerations in Hspec.
    exists (S k), (evs1 ++ evs2). split; [|split; [|split]].
    + by rewrite Ht2, Ht1, <- app_assoc.
    + rewrite enumerations_app. lia.
    + lia.
    + intros _. destruct k as [|k]; [lia|].
      specialize (Hd2 ltac:(done)). lia.
Qed.

End CountFacts.

(** X7. A run of [Reset] calls the ports mapper at least once and at most
    81 times: once before the loop and at most twice in each of the at most
    40 iterations that start before the deadline of 10 s, an iteration
    taking 250 ms at least. In a dry run, with its deadline of 100 ms, it is
    at most 3 times. *)
Theorem Reset_enumerations_bounded E fuel portToTouch wait dryRun portsMapper
    cb w port err w' evs :
  Reset E fuel portToTouch wait dryRun portsMapper cb w
    = Some ((port, err), w') →
  trace w' = trace w ++ evs →
  (1 <= enumerations evs <= if dryRun then 3 else 81)%nat.
Proof.
  intros HR Htrace.
  destruct (Reset_anatomy E _ _ _ _ _ _ _ _ _ _ HR)
    as (r & w1 & hev & lev & Hbl & Hspec & Ht1 & Ht' & _ & _ & Hloop).
  rewrite Ht', Ht1, <- app_assoc in Htrace. apply app_inv_head in Htrace.
  subst evs. rewrite enumerations_app.
  assert (enumerations hev = 1%nat) as ->.
  { destruct (before_loop_events E _ _ _ _ _ _ _ _ _ Hspec)
      as (res & err0 & tail & -> & Henum & _).
    rewrite enumerations_cons, enumerations_none; [done|].
    eapply Forall_impl; [exact Henum|]. by intros ? [? _]. }
  destruct Hloop as [(_ & _ & ->)|(last & last' & w2 & itev & fin & _ & Hit
                                   & Hti & _ & _ & -> & Hend)].
  { cbn. destruct dryRun; lia. }
  apply iterates_count in Hit as (k & evs' & Hti' & Hn & Hc & Hd).
  rewrite Hti in Hti'. apply app_inv_head in Hti'. subst evs'.
  rewrite enumerations_app.
  destruct Hend as [(_ & _ & _ & ->)|(Hlt & _ & Hfin)].
  - rewrite enumerations_fired by done.
    assert (k ≠ 0%nat → (k <= if dryRun then 1 else 40)%nat) as Hk.
    { intros Hk. specialize (Hd Hk). unfold deadline_of in Hd.
      destruct dryRun; lia. }
    destruct k as [|k]; [destruct dryRun; lia|].
    specialize (Hk ltac:(done)). destruct dryRun; lia.
  - apply poll_enumerations in Hfin.
    assert (k <= if dryRun then 0 else 39)%nat as Hk.
    { unfold deadline_of in Hlt. destruct dryRun; lia. }
    destruct dryRun; lia.
Qed.

Lemma Reset_enumerations_bounded_witness :
  (1 <= enumerations
          [EvPortsMapper SiteLast (ports ["A"]) None;
           EvPortsMapper SiteNow (ports ["A"; "B"]) None;
           EvSleep 1000;
           EvPortsMapper SiteCheck (ports ["A"; "B"]) None] <= 81)%nat.
Proof.
  eapply (Reset_enumerations_bounded quiet_env 41 "" true false (Some settles)
            None start "B" None _
            [EvPortsMapper SiteLast (ports ["A"]) None;
             EvPortsMapper SiteNow (ports ["A"; "B"]) None;
             EvSleep 1000;
             EvPortsMapper SiteCheck (ports ["A"; "B"]) None]).
  - vm_compute. reflexivity.
  - vm_compute. reflexivity.
Defined.

(** ** A ports mapper of the caller whose answers settle *)

Section CallerFacts.
Variable E : Env.
Variable f : PortsMapper.
Variable cb : option ResetProgressCallbacks.

Lemma ask_Caller w : ask E (Caller f) w = (f (calls w), w).
Proof. done. Qed.

Lemma calls_fire F ev w : calls (fire E cb F ev w) = calls w.
Proof. unfold fire. by destruct cb as [c|]; [destruct (F c)|]. Qed.

Lemma calls_Sleep ms w : calls (Sleep E ms w) = calls w.
Proof. done. Qed.

Lemma calls_called site w : calls (called E (Caller f) site w) = S (calls w).
Proof. done. Qed.

(** The code before the loop calls the caller's mapper once. *)
Lemma before_loop_calls port wait dryRun w :
  calls (before_loop E (Caller f) cb port wait dryRun w).2 = S (calls w).
Proof.
  rewrite before_loop_unfold. cbv zeta.
  set (w1 := fire E cb Debug _ (called E (Caller f) SiteLast w)).
  assert (calls w1 = S (calls w)) as H1.
  { subst w1. by rewrite calls_fire, calls_called. }
  destruct ((ask E (Caller f) w).1.2); [done|].
  assert (calls (touch_block E cb port wait dryRun w1).2 = S (calls w)) as Htb.
  { rewrite touch_block_unfold. cbv zeta.
    set (w2 := fire E cb TouchingPort _ (fire E cb Debug _ w1)).
    assert (calls w2 = S (calls w)) as H2.
    { subst w2. by rewrite !calls_fire. }
    destruct dryRun; [done|].
    destruct (Touch1200bps_spec E port w2) as (tev & _ & _ & _ & _ & Hcalls).
    destruct (Touch1200bps E port w2) as [[e|] w3]; cbn [fst snd] in *.
    - destruct wait; cbn; congruence.
    - cbn. congruence. }
  destruct (negb (String.eqb port "") && index _ port).
  - destruct (touch_block E cb port wait dryRun w1) as [[[]|p e] w2];
      cbn [fst snd] in *; [|done].
    destruct wait; cbn [negb fst snd]; [|done]. by rewrite calls_fire.
  - cbn [fst snd]. destruct wait; cbn [negb fst snd]; [|done].
    by rewrite calls_fire.
Qed.

(** An iteration calls the caller's mapper once at least. *)
Lemma poll_calls last w : (S (calls w) <= calls (poll E (Caller f) cb last w).2)%nat.
Proof.
  rewrite poll_unfold. cbv zeta.
  destruct ((ask E (Caller f) w).1.2); cbn [snd]; [by rewrite calls_called|].
  destruct (has_new E last _ _); cbn [snd].
  - set (w3 := Sleep E 1000 _).
    assert (calls w3 = S (calls w)) as H3.
    { subst w3. by rewrite calls_Sleep, !calls_fire, calls_called. }
    destruct ((ask E (Caller f) w3).1.2); cbn [snd].
    { rewrite calls_called. lia. }
    destruct (first_new E last _ _); cbn [snd];
      rewrite ?calls_Sleep, !calls_fire, calls_called; lia.
  - by rewrite calls_Sleep, calls_fire, calls_called.
Qed.

Variable m : portmap.

Lemma settled_step last w now w1 :
  poll E (Caller f) cb last w = (Next now, w1) →
  settled f m last w → settled f m now w1.
Proof.
  intros Hpoll (Hf & Htrue & Hlast).
  destruct (poll_ok E (Caller f) cb last w) as (evs & Hspec & _).
  pose proof (poll_calls last w) as Hcalls.
  rewrite Hpoll in Hspec, Hcalls. cbn [fst snd] in *.
  assert (now = m) as ->.
  { inversion Hspec as [|now0 w0 Hask| | |now0 check w0 Hask]; subst;
      rewrite ask_Caller, Hf in Hask by done; cbn in Hask; congruence. }
  split; [|split; [done|]].
  - intros n Hn. apply Hf. lia.
  - intros p [v Hv]. unfold index. rewrite Hv. cbn. by eapply Htrue.
Qed.

(** Once the answers are settled, no iteration returns. *)
Lemma settled_no_return last w p err w' :
  settled f m last w → poll E (Caller f) cb last w ≠ (Return p err, w').
Proof.
  intros (Hf & Htrue & Hlast) Hpoll.
  destruct (poll_ok E (Caller f) cb last w) as (evs & Hspec & _).
  rewrite Hpoll in Hspec. cbn [fst snd] in *.
  inversion Hspec as [now e w0 Hask| |now check e w0 Hask Hn
                     |now check p0 w0 Hask Hn|]; subst;
    rewrite ask_Caller, Hf in Hask by done; cbn in Hask;
    injection Hask as <-; try done;
    destruct Hn as (q & Hq & Hi); rewrite (Hlast q Hq) in Hi; done.
Qed.

Lemma settled_iterates deadline last w last' w' :
  iterates E (Caller f) cb deadline last w last' w' →
  settled f m last w → settled f m last' w'.
Proof.
  intros Hit. apply (iterates_ind_inv E (Caller f) cb deadline (settled f m));
    [|done]. intros ? ? ? ? _ Hpoll. by apply settled_step.
Qed.

(** With settled answers the iterations only see [m]. *)
Lemma settled_iterates_events deadline last w last' w' :
  iterates E (Caller f) cb deadline last w last' w' →
  settled f m last w →
  ∃ evs, trace w' = trace w ++ evs ∧ Forall (settled_event m) evs.
Proof.
  induction 1 as [last w|last w now w1 last' w' Hd Hpoll Hit IH]; intros Hs.
  - exists []. by rewrite app_nil_r.
  - destruct (IH (settled_step _ _ _ _ Hpoll Hs)) as (evs2 & Ht2 & H2).
    destruct (poll_ok E (Caller f) cb last w) as (evs1 & Hspec & Ht1 & _).
    rewrite Hpoll in Hspec, Ht1. cbn [fst snd] in *.
    exists (evs1 ++ evs2). split; [by rewrite Ht2, Ht1, <- app_assoc|].
    apply Forall_app_2; [|done].
    destruct Hs as (Hf & Htrue & Hlast).
    inversion Hspec as [|now0 w0 Hask Hn Hc| | |now0 check w0 Hask Hn Hg Hc];
      subst; rewrite ask_Caller, Hf in Hask by done; cbn in Hask;
      injection Hask as <-.
    + solve_Forall; done.
    + destruct Hn as (q & Hq & Hi). rewrite (Hlast q Hq) in Hi. done.
Qed.

End CallerFacts.

Section SettledRun.
Variable E : Env.
Variable f : PortsMapper.
Variable cb : option ResetProgressCallbacks.
Variable m : portmap.

(** The code before the loop, when the first answer is [m]. *)
Lemma settled_before_loop port w last w1 hev :
  f (calls w) = (m, None) →
  before_loop_spec E (Caller f) cb port true false w (Next last) w1 hev →
  last = m ∧ Forall (settled_event m) hev.
Proof.
  intros Hf Hspec.
  inversion Hspec as [| | |last0 w2 w3 w0 tbev Hask _ Htb]; subst.
  rewrite ask_Caller, Hf in Hask. cbn in Hask. injection Hask as <-.
  split; [done|]. unfold head_events.
  destruct Htb as [(_ & _ & Htb)|[_ ->]].
  - assert (Forall (settled_event m) tbev).
    { eapply touch_block_events_Forall; [..|exact Htb]; done. }
    solve_Forall; done.
  - solve_Forall; done.
Qed.

(** From a loop head with settled answers, the loop ends at the deadline. *)
Lemma settled_end deadline last w last' w2 p err w' :
  settled f m last w →
  iterates E (Caller f) cb deadline last w last' w2 →
  deadline <= clock w2 ∧ p = "" ∧ err = None
  ∧ w' = fire E cb BootloaderPortFound (EvBootloaderPortFound "") w2
  ∨ clock w2 < deadline ∧ poll E (Caller f) cb last' w2 = (Return p err, w') →
  ∃ evs, p = "" ∧ err = None ∧ deadline <= clock w'
         ∧ trace w' = trace w ++ evs ∧ Forall (settled_event m) evs.
Proof.
  intros Hs Hit Hend.
  destruct (settled_iterates_events _ _ _ _ _ _ _ _ _ Hit Hs) as (evs & Ht & Hev).
  destruct Hend as [(Hd & -> & -> & ->)|(_ & Hpoll)].
  - exists (evs ++ fired cb BootloaderPortFound (EvBootloaderPortFound "")).
    repeat split; try done.
    + etrans; [exact Hd|apply clock_fire].
    + by rewrite trace_fire, Ht, <- app_assoc.
    + apply Forall_app_2; [done|]. by apply Forall_fired.
  - exfalso. eapply settled_no_return; [|exact Hpoll].
    eapply settled_iterates; [exact Hit|exact Hs].
Qed.

End SettledRun.

(** X8. When the caller's ports mapper gives the same answer at every call,
    with every port bound to [true], [Reset] with [wait] finds nothing: it
    returns no port and no error once ten seconds have passed, and it never
    does a stabilisation check nor sleeps for one second. *)
Theorem Reset_settled_answers E fuel portToTouch cb w f m :
  (41 <= fuel)%nat →
  (∀ n, (calls w <= n)%nat → f n = (m, None)) →
  (∀ p v, m !! p = Some v → v = true) →
  ∃ w' evs,
    Reset E fuel portToTouch true false (Some f) cb w = Some (("", None), w')
    ∧ clock w + 10000 <= clock w'
    ∧ trace w' = trace w ++ evs
    ∧ Forall (settled_event m) evs.
Proof.
  intros Hfuel Hf Htrue.
  destruct (Reset_total E fuel portToTouch true false (Some f) cb w Hfuel)
    as [[[p err] w'] HR].
  pose proof (Reset_cases E _ _ _ _ _ _ _ _ _ _ HR) as Hcases.
  cbn [select_mapper fst snd] in Hcases.
  destruct (before_loop_ok E (Caller f) cb portToTouch true false w)
    as (hev & Hspec & Ht & Hc & _).
  pose proof (before_loop_calls E f cb portToTouch true false w) as Hcalls.
  destruct Hcases as [Hbl|(last & w1 & last' & w2 & Hbl & Hit & Hend)];
    rewrite Hbl in Hspec, Ht, Hc, Hcalls; cbn [fst snd] in *.
  { exfalso.
    inversion Hspec as [last e w0 Hask|last w2 p0 e w0 tbev Hask Hp Hi Htb
                       |last w2 w0 tbev Hask Hw|]; subst.
    - rewrite ask_Caller, Hf in Hask by done. done.
    - inversion Htb; subst; done.
    - done. }
  destruct (settled_before_loop E f cb m _ _ _ _ _ (Hf _ (le_n _)) Hspec)
    as [-> Hhev].
  assert (settled f m m w1) as Hs.
  { split; [|split; [done|]].
    - intros n Hn. apply Hf. lia.
    - intros q [v Hv]. unfold index. rewrite Hv. cbn. by eapply Htrue. }
  destruct (settled_end E f cb m _ _ _ _ _ p err w' Hs Hit Hend)
    as (evs & -> & -> & Hd & Ht' & Hev).
  exists w', (hev ++ evs). split; [done|]. split; [|split].
  - unfold deadline_of in Hd. cbn in Hd. lia.
  - by rewrite Ht', Ht, <- app_assoc.
  - by apply Forall_app_2.
Qed.

Lemma Reset_settled_answers_witness :
  ∃ w' evs,
    Reset quiet_env 41 "A" true false (Some (steady (ports ["A"; "B"])))
      observers start = Some (("", None), w')
    ∧ clock start + 10000 <= clock w'
    ∧ trace w' = trace start ++ evs
    ∧ Forall (settled_event (ports ["A"; "B"])) evs.
Proof.
  apply (Reset_settled_answers quiet_env 41 "A" observers start
           (steady (ports ["A"; "B"])) (ports ["A"; "B"])).
  - lia.
  - done.
  - intros p v. unfold ports. cbn.
    intros Hv. apply lookup_insert_Some in Hv as [[_ <-]|[_ Hv]]; [done|].
    apply lookup_insert_Some in Hv as [[_ <-]|[_ Hv]]; done.
Defined.

(** ** The first iteration with a ports mapper of the caller *)

Section FirstIteration.
Variable E : Env.
Variable f : PortsMapper.
Variable cb : option ResetProgressCallbacks.

(** With [wait] and a first answer without error, the code before the loop
    falls through with that answer as [last]. *)
Lemma before_loop_Caller port w m :
  f (calls w) = (m, None) →
  ∃ w1, before_loop E (Caller f) cb port true false w = (Next m, w1)
        ∧ calls w1 = S (calls w) ∧ clock w <= clock w1.
Proof.
  intros Hf.
  destruct (before_loop_ok E (Caller f) cb port true false w)
    as (hev & Hspec & _ & Hc & _).
  pose proof (before_loop_calls E f cb port true false w) as Hcalls.
  destruct (before_loop E (Caller f) cb port true false w) as [r w1].
  cbn [fst snd] in *. exists w1.
  inversion Hspec as [last e w0 Hask|last w2 p0 e w0 tbev Hask Hp Hi Htb
                     |last w2 w0 tbev Hask Hw
                     |last w2 w3 w0 tbev Hask _ _]; subst.
  - rewrite ask_Caller, Hf in Hask. done.
  - inversion Htb; subst; done.
  - done.
  - rewrite ask_Caller, Hf in Hask. cbn in Hask. by injection Hask as <-.
Qed.

(** An iteration that sees a new port in [now] either returns a key of
    [check] that [last] does not hold, or falls through after two calls. *)
Lemma poll_Caller_new last w now check :
  f (calls w) = (now, None) →
  f (S (calls w)) = (check, None) →
  (∃ q, is_Some (now !! q) ∧ index last q = false) →
  (∃ p w', poll E (Caller f) cb last w = (Return p None, w')
           ∧ is_Some (check !! p) ∧ index last p = false)
  ∨ (∀ p, is_Some (check !! p) → index last p = true)
    ∧ ∃ w', poll E (Caller f) cb last w = (Next now, w')
            ∧ calls w' = S (S (calls w)).
Proof.
  intros Hnow Hcheck Hnew.
  rewrite poll_unfold. cbv zeta. rewrite ask_Caller, Hnow. cbn [fst snd].
  set (w2 := fire E cb Debug _ (called E (Caller f) SiteNow w)).
  assert (has_new E last now w2 = true) as -> by (by apply has_new_true).
  set (w3 := Sleep E 1000 _).
  assert (calls w3 = S (calls w)) as H3.
  { subst w3 w2. by rewrite calls_Sleep, !calls_fire, calls_called. }
  rewrite ask_Caller, H3, Hcheck. cbn [fst snd].
  set (w5 := fire E cb Debug _ (called E (Caller f) SiteCheck w3)).
  destruct (first_new E last check w5) as [p|] eqn:Hfirst.
  - left. apply first_new_Some in Hfirst as [Hp Hi]. by eexists _, _.
  - right. split; [by eapply first_new_None|]. eexists. split; [done|].
    subst w5. by rewrite calls_Sleep, !calls_fire, calls_called, H3.
Qed.

End FirstIteration.

(** X9. A key that the caller's ports mapper binds to [false] counts as a
    port that the baseline does not hold: when the mapper gives the same
    answer at its first three calls and that answer binds a key to [false],
    [Reset] with [wait] returns, after its first stabilisation check, a port
    bound to [false], though the answers never changed. *)
Theorem Reset_false_bound_port E fuel portToTouch cb w f m q :
  (1 <= fuel)%nat →
  f (calls w) = (m, None) →
  f (S (calls w)) = (m, None) →
  f (S (S (calls w))) = (m, None) →
  m !! q = Some false →
  ∃ p w',
    Reset E fuel portToTouch true false (Some f) cb w = Some ((p, None), w')
    ∧ m !! p = Some false.
Proof.
  intros Hfuel H0 H1 H2 Hq.
  destruct (before_loop_Caller E f cb portToTouch w m H0)
    as (w1 & Hbl & Hcalls & _).
  assert (∃ q, is_Some (m !! q) ∧ index m q = false) as Hnew.
  { exists q. split; [by eexists|]. unfold index. by rewrite Hq. }
  rewrite <- Hcalls in H1, H2.
  destruct (poll_Caller_new E f cb m w1 m m H1 H2 Hnew)
    as [(p & w' & Hpoll & [v Hp] & Hi)|[Hall _]].
  - exists p, w'. split.
    + unfold Reset. cbn [select_mapper fst snd]. rewrite Hbl.
      destruct fuel as [|fuel]; [lia|]. cbn [wait_loop].
      assert ((clock w1 <? deadline_of false w1) = true) as ->.
      { apply Z.ltb_lt. unfold deadline_of. cbn. lia. }
      by rewrite Hpoll.
    + unfold index in Hi. rewrite Hp in Hi. cbn in Hi. by subst v.
  - destruct Hnew as (q0 & Hq0 & Hi0). rewrite (Hall q0 Hq0) in Hi0. done.
Qed.

Lemma Reset_false_bound_port_witness :
  ∃ p w',
    Reset quiet_env 1 "" true false (Some (steady unplugged)) None start
      = Some ((p, None), w')
    ∧ unplugged !! p = Some false.
Proof.
  apply (Reset_false_bound_port quiet_env 1 "" None start
           (steady unplugged) unplugged "A"); done.
Defined.

(** X10. A port that shows up in an iteration, is gone at the stabilisation
    check one second later, and is back at every later call is never
    returned: the snapshot that held it has become the baseline.  [Reset]
    returns no port and no error, once ten seconds have passed. *)
Theorem Reset_misses_port_gone_at_check E fuel portToTouch cb w f
    base seen check :
  (41 <= fuel)%nat →
  f (calls w) = (base, None) →
  f (S (calls w)) = (seen, None) →
  f (S (S (calls w))) = (check, None) →
  (∀ n, (calls w + 3 <= n)%nat → f n = (seen, None)) →
  (∃ q, is_Some (seen !! q) ∧ index base q = false) →
  (∀ p, is_Some (check !! p) → index base p = true) →
  (∀ p v, seen !! p = Some v → v = true) →
  ∃ w', Reset E fuel portToTouch true false (Some f) cb w
          = Some (("", None), w')
        ∧ clock w + 10000 <= clock w'.
Proof.
  intros Hfuel H0 H1 H2 Hlater Hnew Hgone Htrue.
  destruct (Reset_total E fuel portToTouch true false (Some f) cb w Hfuel)
    as [[[p err] w'] HR].
  pose proof (Reset_cases E _ _ _ _ _ _ _ _ _ _ HR) as Hcases.
  cbn [select_mapper fst snd] in Hcases.
  destruct (before_loop_Caller E f cb portToTouch w base H0)
    as (w1 & Hbl & Hcalls & Hclock).
  rewrite Hbl in Hcases.
  destruct Hcases as [[=]|(last & w1' & last' & w2 & [= <- <-] & Hit & Hend)].
  rewrite <- Hcalls in H1, H2.
  destruct (poll_Caller_new E f cb base w1 seen check H1 H2 Hnew)
    as [(p0 & w0 & _ & Hp0 & Hi0)|[_ (w6 & Hpoll & Hcalls6)]].
  { rewrite (Hgone p0 Hp0) in Hi0. done. }
  assert (deadline_of false w1 = clock w1 + 10000) as Hdl by done.
  assert (settled f seen seen w6) as Hs.
  { split; [|split; [done|]].
    - intros n Hn. apply Hlater. lia.
    - intros q [v Hv]. unfold index. rewrite Hv. cbn. by eapply Htrue. }
  inversion Hit as [|? ? now w1'' ? ? Hd Hpoll' Hit']; subst.
  - exfalso. destruct Hend as [(Hd & _)|(_ & Hpoll')]; [lia|].
    rewrite Hpoll in Hpoll'. done.
  - rewrite Hpoll in Hpoll'. injection Hpoll' as <- <-.
    destruct (settled_end E f cb seen _ _ _ _ _ p err w' Hs Hit' Hend)
      as (evs & -> & -> & Hd' & _).
    exists w'. split; [done|]. lia.
Qed.

Lemma Reset_misses_port_gone_at_check_witness :
  ∃ w', Reset quiet_env 41 "" true false (Some resettles) observers start
          = Some (("", None), w')
        ∧ clock start + 10000 <= clock w'.
Proof.
  apply (Reset_misses_port_gone_at_check quiet_env 41 "" observers start
           resettles (ports ["A"]) (ports ["A"; "B"]) (ports ["A"])).
  - lia.
  - done.
  - done.
  - done.
  - intros n Hn. cbn in Hn. do 3 (destruct n as [|n]; [lia|]). done.
  - exists "B". split; [by eexists|done].
  - intros p [v Hv]. unfold ports in Hv. cbn in Hv.
    apply lookup_insert_Some in Hv as [[<- _]|[_ Hv]]; done.
  - intros p v. unfold ports. cbn.
    intros Hv. apply lookup_insert_Some in Hv as [[_ <-]|[_ Hv]]; [done|].
    apply lookup_insert_Some in Hv as [[_ <-]|[_ Hv]]; done.
Defined.

(** ** [Touch1200bps] and the result of [Close] *)

(** X11. [Touch1200bps] returns [nil] exactly when [Open] succeeded and,
    off Windows, [SetDTR] did: the result of [Close] never reaches the
    caller, and replacing [Close] by any other one leaves the returned error
    as it is. The sleep of 500 ms is done exactly when [nil] is returned. *)
Theorem Touch1200bps_discards_Close E port w :
  let r := Touch1200bps E port w in
  (r.1 = None
   ↔ serial_Open E (ticks w) port 1200 = None
     ∧ (GOOS E = "windows" ∨ serial_SetDTR E (S (ticks w)) false = None))
  ∧ (EvSleep 500 ∈ trace r.2 ↔ r.1 = None ∨ EvSleep 500 ∈ trace w)
  ∧ ∀ close : nat → option error,
      (Touch1200bps
         {| GOOS := GOOS E; serial_Open := serial_Open E;
            serial_SetDTR := serial_SetDTR E; serial_Close := close;
            serial_GetPortsList := serial_GetPortsList E; lag := lag E;
            range_rank := range_rank E |} port w).1 = r.1.
Proof.
  unfold Touch1200bps, Sleep, emit. cbn.
  destruct (serial_Open E (ticks w) port 1200) as [e|] eqn:Hopen; cbn.
  { split; [|split; [|done]].
    - split; [done|]. by intros [? _].
    - rewrite elem_of_app, list_elem_of_singleton.
      split; [intros [?|?]; [by right|done]|intros [?|?]; [done|by left]]. }
  destruct (String.eqb_spec (GOOS E) "windows") as [Hos|Hos]; cbn.
  { split; [|split; [|done]].
    - split; [|done]. intros _. split; [done|]. by left.
    - rewrite !elem_of_app, !list_elem_of_singleton.
      split; [by left|]. intros _. by right. }
  destruct (serial_SetDTR E (S (ticks w)) false) as [e|] eqn:Hdtr; cbn.
  - split; [|split; [|done]].
    + split; [done|]. intros [_ [?|?]]; done.
    + rewrite !elem_of_app, !list_elem_of_singleton.
      split; [intros [[[?|?]|?]|?]; try done; by right|].
      intros [?|?]; [done|]. by do 3 left.
  - split; [|split; [|done]].
    + split; [|done]. intros _. split; [done|]. by right.
    + rewrite !elem_of_app, !list_elem_of_singleton.
      split; [by left|]. intros _. by right.
Qed.

(** ** The callbacks that are not set *)

Lemma fired_allowed cb F ev :
  (is_set cb F = true → allowed cb ev = true) →
  Forall (λ ev, allowed cb ev = true) (fired cb F ev).
Proof.
  intros H. unfold fired, is_set in *.
  destruct cb as [c|]; [destruct (F c)|]; auto.
Qed.

Ltac solve_allowed :=
  repeat first
    [ apply Forall_nil_2
    | apply Forall_cons_2
    | apply Forall_app_2
    | apply fired_allowed ];
  try done.

Section AllowedFacts.
Variable E : Env.
Variable pm : Mapper.
Variable cb : option ResetProgressCallbacks.

Lemma touch_block_allowed port wait dryRun w r w' tbev :
  touch_block_spec E cb port wait dryRun w r w' tbev →
  Forall (λ ev, allowed cb ev = true) tbev.
Proof.
  intros H. inversion H as [w0 Hd|w1 w0 tev Hd Hts|e w1 w0 tev Hd Hw Hts
                           |e w1 w0 tev Hd Hw Hts]; subst;
    unfold touch_block_events; solve_allowed;
    inversion Hts; subst; solve_allowed.
Qed.

Lemma before_loop_allowed port wait dryRun w r w' hev :
  before_loop_spec E pm cb port wait dryRun w r w' hev →
  Forall (λ ev, allowed cb ev = true) hev.
Proof.
  intros H.
  inversion H as [last e w0 Hask|last w2 p e w0 tbev Hask Hp Hi Htb
                 |last w2 w0 tbev Hask Hw Htb
                 |last w2 w3 w0 tbev Hask Hw Htb]; subst;
    unfold head_events; solve_allowed.
  - by eapply touch_block_allowed.
  - destruct Htb as [(_ & _ & Htb)|[_ ->]]; [by eapply touch_block_allowed|done].
  - destruct Htb as [(_ & _ & Htb)|[_ ->]]; [by eapply touch_block_allowed|done].
Qed.

Lemma poll_allowed last w r w' evs :
  poll_spec E pm cb last w r w' evs →
  Forall (λ ev, allowed cb ev = true) evs.
Proof. intros H. inversion H; subst; solve_allowed. Qed.

Lemma iterates_allowed deadline last w last' w' :
  iterates E pm cb deadline last w last' w' →
  ∃ evs, trace w' = trace w ++ evs ∧ Forall (λ ev, allowed cb ev = true) evs.
Proof.
  induction 1 as [last w|last w now w1 last' w' Hd Hpoll Hit IH].
  - exists []. by rewrite app_nil_r.
  - destruct IH as (evs2 & Ht2 & H2).
    destruct (poll_ok E pm cb last w) as (evs1 & Hspec & Ht1 & _).
    rewrite Hpoll in Hspec, Ht1. cbn [fst snd] in *.
    exists (evs1 ++ evs2). split; [by rewrite Ht2, Ht1, <- app_assoc|].
    apply Forall_app_2; [by eapply poll_allowed|done].
Qed.

End AllowedFacts.

(** X12. [Reset] only calls the callbacks that it was given: with [cb] nil
    none is called, and a field of [cb] that is nil is never called. *)
Theorem Reset_calls_set_callbacks E fuel portToTouch wait dryRun portsMapper
    cb w port err w' evs :
  Reset E fuel portToTouch wait dryRun portsMapper cb w
    = Some ((port, err), w') →
  trace w' = trace w ++ evs →
  Forall (λ ev, allowed cb ev = true) evs.
Proof.
  intros HR Htrace.
  pose proof (Reset_cases E _ _ _ _ _ _ _ _ _ _ HR) as Hcases.
  cbv zeta in Hcases.
  set (s := select_mapper portToTouch dryRun portsMapper w) in *.
  destruct (before_loop_ok E s.1 cb portToTouch wait dryRun s.2)
    as (hev & Hspec & Ht & _).
  assert (trace s.2 = trace w) as Hs by apply trace_select_mapper.
  rewrite Hs in Ht.
  pose proof (before_loop_allowed E s.1 cb _ _ _ _ _ _ _ Hspec) as Hhev.
  destruct Hcases as [Hbl|(last & w1 & last' & w2 & Hbl & Hit & Hend)];
    rewrite Hbl in Ht; cbn [fst snd] in *.
  { rewrite Ht in Htrace. by apply app_inv_head in Htrace as <-. }
  destruct (iterates_allowed E s.1 cb _ _ _ _ _ Hit) as (itev & Hti & Hitev).
  destruct Hend as [(_ & _ & _ & ->)|(_ & Hpoll)].
  - rewrite trace_fire, Hti, Ht, <- !app_assoc in Htrace.
    apply app_inv_head in Htrace as <-. solve_allowed.
  - destruct (poll_ok E s.1 cb last' w2) as (fin & Hfin & Htf & _).
    rewrite Hpoll in Hfin, Htf. cbn [fst snd] in *.
    rewrite Htf, Hti, Ht, <- !app_assoc in Htrace.
    apply app_inv_head in Htrace as <-. solve_allowed.
    by eapply poll_allowed.
Qed.

Lemma Reset_calls_set_callbacks_witness :
  Forall (λ ev, allowed None ev = true)
    [EvPortsMapper SiteLast (ports ["A"]) None;
     EvPortsMapper SiteNow (ports ["A"; "B"]) None;
     EvSleep 1000;
     EvPortsMapper SiteCheck (ports ["A"; "B"]) None].
Proof.
  eapply (Reset_calls_set_callbacks quiet_env 41 "" true false (Some settles)
            None start "B" None _
            [EvPortsMapper SiteLast (ports ["A"]) None;
             EvPortsMapper SiteNow (ports ["A"; "B"]) None;
             EvSleep 1000;
             EvPortsMapper SiteCheck (ports ["A"; "B"]) None]).
  - vm_compute. reflexivity.
  - vm_compute. reflexivity.
Defined.
